(** * Qualcomm root clock generator (RCG2): model of drivers/clk/qcom/clk-rcg2.c

    The driver is a table of callbacks for the common clock framework.  Every
    callback talks to the hardware through a regmap (a register-access
    interface that may fail), so the model is written in a small state monad
    over "the world": the state behind the regmap plus a log of every
    externally visible action (register reads, read-modify-write updates,
    delays and warnings).

    Integers are modelled as [Z] with the wrap-around of the C types written
    out: [u32], [u64], [unsigned long] (32 or 64 bits, depending on the
    target), [int] and [long]. *)

From Stdlib Require Import ZArith Lia String.
From stdpp Require Import base list gmap.

Local Open Scope Z_scope.

(** ** Machine integers *)

(** Width of [unsigned long]: the driver builds for 32-bit ARM and for
    64-bit targets. *)
Inductive abi := ILP32 | LP64.

Definition BITS_PER_LONG (a : abi) : Z :=
  match a with ILP32 => 32 | LP64 => 64 end.

Definition u8 (x : Z) : Z := x mod 2 ^ 8.
Definition u32 (x : Z) : Z := x mod 2 ^ 32.
Definition u64 (x : Z) : Z := x mod 2 ^ 64.
Definition ulong (a : abi) (x : Z) : Z := x mod 2 ^ BITS_PER_LONG a.

(** Conversion of an [unsigned long] to [long] (two's complement). *)
Definition to_long (a : abi) (x : Z) : Z :=
  let x := ulong a x in
  if x <? 2 ^ (BITS_PER_LONG a - 1) then x else x - 2 ^ BITS_PER_LONG a.

(** [BIT(nr)] is [1UL << nr] (linux/bitops.h, not among these sources);
    shifting by the width of the type or more is undefined in C, which
    [None] stands for. *)
Definition BIT (a : abi) (nr : Z) : option Z :=
  if (0 <=? nr) && (nr <? BITS_PER_LONG a) then Some (Z.shiftl 1 nr) else None.

(** [BIT(width) - 1] stored in a [u32]. *)
Definition width_mask (a : abi) (width : Z) : option Z :=
  match BIT a width with
  | Some b => Some (u32 (b - 1))
  | None => None
  end.

(** The error number of "invalid argument" (errno-base.h, not among these
    sources): 22 on every Linux target. *)
Definition EINVAL : Z := 22.

(** ** Register layout *)

Definition CMD_REG : Z := 0x0.
Definition CMD_UPDATE : Z := Z.shiftl 1 0.
Definition CMD_ROOT_EN : Z := Z.shiftl 1 1.
Definition CMD_DIRTY_CFG : Z := Z.shiftl 1 4.
Definition CMD_DIRTY_N : Z := Z.shiftl 1 5.
Definition CMD_DIRTY_M : Z := Z.shiftl 1 6.
Definition CMD_DIRTY_D : Z := Z.shiftl 1 7.
Definition CMD_ROOT_OFF : Z := Z.shiftl 1 31.

Definition CFG_REG : Z := 0x4.
Definition CFG_SRC_DIV_SHIFT : Z := 0.
Definition CFG_SRC_SEL_SHIFT : Z := 8.
Definition CFG_SRC_SEL_MASK : Z := Z.shiftl 0x7 CFG_SRC_SEL_SHIFT.
Definition CFG_MODE_SHIFT : Z := 12.
Definition CFG_MODE_MASK : Z := Z.shiftl 0x3 CFG_MODE_SHIFT.
Definition CFG_MODE_DUAL_EDGE : Z := Z.shiftl 0x2 CFG_MODE_SHIFT.

Definition M_REG : Z := 0x8.
Definition N_REG : Z := 0xc.
Definition D_REG : Z := 0x10.

(** ** Data *)

(** Modelled from the spec: [struct freq_tbl], one row of a frequency
    table (declared in clk-rcg.h, which is not among these sources).  The
    fields are the ones the code reads, all unsigned integers; whatever their
    declared widths, the driver only uses them in [int], u32 or wider
    expressions, which agree modulo 2^32 on values below 2^32. *)
Record freq_tbl := {
  f_freq : Z;     (* target frequency in Hz, unsigned long *)
  f_src : Z;      (* index into the parent map *)
  f_pre_div : Z;  (* pre-divider field value *)
  f_m : Z;
  f_n : Z
}.

(** A frequency table is a C array closed by a row whose frequency is 0.
    The list holds the rows of the array; the end of the list is the
    position of the closing row.  A row of frequency 0 inside the list stops
    the scan just as well, as in the code.  A NULL table is [None]. *)
Definition freq_table := option (list freq_tbl).

(** Modelled from the spec: the device, [struct clk_rcg2] (clk-rcg.h, not
    among these sources), with the fields the code reads, together with what
    the clock framework knows about the clock ([hw->clk]): its number of
    parents, its flags and its name. *)
Record clk_rcg2 := {
  cmd_rcgr : Z;            (* offset of the command register, u32 *)
  mnd_width : Z;           (* width of the M/N/D counters, u8 *)
  hid_width : Z;           (* width of the divider field, u8 *)
  parent_map : list Z;     (* parent index -> select-field encoding *)
  rcg_freq_tbl : freq_table;
  num_parents : Z;         (* __clk_get_num_parents(hw->clk) *)
  clk_flags : Z;           (* __clk_get_flags(hw->clk) *)
  clk_name : string        (* __clk_get_name(hw->clk) *)
}.

(** ** Frequency table lookup *)

(** [find_freq]: the scan returns a pointer into the table, modelled as the
    position of the row together with the row. *)
Fixpoint find_freq_from (i : nat) (f : list freq_tbl) (rate : Z)
  : option (nat * freq_tbl) :=
  match f with
  | [] => None
  | e :: f' =>
      if f_freq e =? 0 then None
      else if rate <=? f_freq e then Some (i, e)
      else find_freq_from (S i) f' rate
  end.

Definition find_freq (f : freq_table) (rate : Z) : option (nat * freq_tbl) :=
  match f with
  | None => None
  | Some f => find_freq_from 0 f rate
  end.

(** ** Rate arithmetic *)

(** [do_div(tmp, base)] (asm/div64.h, not among these sources) divides a
    64-bit value in place by a 32-bit one; a zero divisor is undefined. *)
Definition do_div (tmp base : Z) : option Z :=
  if u32 base =? 0 then None else Some (tmp / u32 base).

(** [calc_rate]: [rate] is an [unsigned long], the other arguments are u32.
    [None] is a division by zero. *)
Definition calc_rate (a : abi) (rate m n mode hid_div : Z) : option Z :=
  match
    (if hid_div =? 0 then Some rate
     else
       let rate := ulong a (rate * 2) in
       let d := u32 (hid_div + 1) in
       if d =? 0 then None else Some (rate / d))
  with
  | None => None
  | Some rate =>
      if mode =? 0 then Some rate
      else
        let tmp := rate in
        let tmp := u64 (tmp * m) in
        match do_div tmp n with
        | None => None
        | Some tmp => Some (ulong a tmp)
        end
  end.


(** ** The world behind the driver *)

(** Everything the driver does to its surroundings, in order.  Register
    accesses carry the status the regmap returned. *)
Inductive event :=
| EvRead (reg ret val : Z)
| EvUpdate (reg mask val ret : Z)
| EvDelay (usecs : Z)
| EvWarn (name : string).

(** The register-access interface (regmap).  Both operations may change the
    state behind the interface and return a status, 0 for success.  A read
    also yields what the destination variable holds afterwards. *)
Class Regmap (H : Type) := {
  hw_read : H -> Z -> H * (Z * Z);
  hw_update_bits : H -> Z -> Z -> Z -> H * Z
}.

Record world (H : Type) := World { hw : H; trace : list event }.
Arguments World {H} _ _.
Arguments hw {H} _.
Arguments trace {H} _.

(** A run either completes with a value and a new world, or hits behaviour
    that C leaves undefined (array read out of bounds, oversized shift,
    division by zero). *)
Inductive outcome (H A : Type) :=
| Done (a : A) (w : world H)
| Undefined.
Arguments Done {H A} _ _.
Arguments Undefined {H A}.

Definition M (H A : Type) : Type := world H -> outcome H A.

#[global] Instance M_ret {H} : MRet (M H) := fun A a w => Done a w.
#[global] Instance M_bind {H} : MBind (M H) := fun A B k c w =>
  match c w with
  | Done a w' => k a w'
  | Undefined => Undefined
  end.

(** Lift a partial pure computation; [None] is undefined behaviour. *)
Definition defined {H A} (o : option A) : M H A := fun w =>
  match o with
  | Some a => Done a w
  | None => Undefined
  end.

Definition log {H} (e : event) : M H unit := fun w =>
  Done tt (World (hw w) (trace w ++ [e])).

Section Driver.
Context {H : Type} `{!Regmap H}.
Variable a : abi.

Definition regmap_read (reg : Z) : M H (Z * Z) := fun w =>
  let '(h, (ret, val)) := hw_read (hw w) reg in
  Done (ret, val) (World h (trace w ++ [EvRead reg ret val])).

Definition regmap_update_bits (reg mask val : Z) : M H Z := fun w =>
  let '(h, ret) := hw_update_bits (hw w) reg mask val in
  Done ret (World h (trace w ++ [EvUpdate reg mask val ret])).

Definition udelay (usecs : Z) : M H unit := log (EvDelay usecs).
Definition WARN (name : string) : M H unit := log (EvWarn name).

(** Register offsets are computed in u32. *)
Definition reg_of (rcg : clk_rcg2) (off : Z) : Z := u32 (cmd_rcgr rcg + off).

(** *** clk_rcg2_is_enabled *)
Definition clk_rcg2_is_enabled (rcg : clk_rcg2) : M H Z :=
  '(ret, cmd) ← regmap_read (reg_of rcg CMD_REG);
  if negb (ret =? 0) then mret ret
  else mret (if negb (Z.land cmd CMD_ROOT_OFF =? 0) then 1 else 0).

(** *** clk_rcg2_get_parent *)

Inductive scan_result := Hit (i : Z) | Miss | OutOfBounds.

(** for (i = 0; i < num_parents; i++) if (cfg == parent_map[i]) return i; *)
Fixpoint parent_scan (pm : list Z) (cfg : Z) (i : Z) (todo : nat)
  : scan_result :=
  match todo with
  | O => Miss
  | S todo' =>
      match pm !! Z.to_nat i with
      | None => OutOfBounds
      | Some v => if cfg =? v then Hit i else parent_scan pm cfg (i + 1) todo'
      end
  end.

(** The select field of a config value, as the driver extracts it. *)
Definition cfg_src_sel (cfg : Z) : Z :=
  Z.shiftr (Z.land cfg CFG_SRC_SEL_MASK) CFG_SRC_SEL_SHIFT.

(** The function returns u8: every returned int is cut to 8 bits. *)
Definition clk_rcg2_get_parent (rcg : clk_rcg2) : M H Z :=
  '(ret, cfg) ← regmap_read (reg_of rcg CFG_REG);
  if negb (ret =? 0) then mret (u8 ret)
  else
    let cfg := cfg_src_sel cfg in
    match parent_scan (parent_map rcg) cfg 0 (Z.to_nat (num_parents rcg)) with
    | Hit i => mret (u8 i)
    | Miss => mret (u8 (- EINVAL))
    | OutOfBounds => defined None
    end.

(** *** update_config *)

(** The body of the wait loop, [count] iterations left; after the loop the
    warning is raised and 0 returned. *)
Fixpoint update_config_wait (rcg : clk_rcg2) (count : nat) : M H Z :=
  match count with
  | O => _ ← WARN (clk_name rcg); mret 0
  | S count' =>
      '(ret, cmd) ← regmap_read (reg_of rcg CMD_REG);
      if negb (ret =? 0) then mret ret
      else if Z.land cmd CMD_UPDATE =? 0 then mret 0
      else _ ← udelay 1; update_config_wait rcg count'
  end.

Definition update_config (rcg : clk_rcg2) : M H Z :=
  ret ← regmap_update_bits (reg_of rcg CMD_REG) CMD_UPDATE CMD_UPDATE;
  if negb (ret =? 0) then mret ret
  else update_config_wait rcg 500.

(** *** clk_rcg2_set_parent *)
Definition clk_rcg2_set_parent (rcg : clk_rcg2) (index : Z) : M H Z :=
  pm ← defined (parent_map rcg !! Z.to_nat index);
  ret ← regmap_update_bits (reg_of rcg CFG_REG) CFG_SRC_SEL_MASK
          (u32 (Z.shiftl pm CFG_SRC_SEL_SHIFT));
  if negb (ret =? 0) then mret ret
  else update_config rcg.

(** *** clk_rcg2_recalc_rate *)

Definition cfg_mode (cfg : Z) : Z :=
  Z.shiftr (Z.land cfg CFG_MODE_MASK) CFG_MODE_SHIFT.

Definition cfg_hid_div (mask cfg : Z) : Z :=
  Z.land (Z.shiftr cfg CFG_SRC_DIV_SHIFT) mask.

(** The statuses of the reads are ignored by the code. *)
Definition clk_rcg2_recalc_rate (rcg : clk_rcg2) (parent_rate : Z) : M H Z :=
  '(_, cfg) ← regmap_read (reg_of rcg CFG_REG);
  '(m, n, mode) ←
    (if negb (mnd_width rcg =? 0) then
       mask ← defined (width_mask a (mnd_width rcg));
       '(_, m) ← regmap_read (reg_of rcg M_REG);
       let m := Z.land m mask in
       '(_, n) ← regmap_read (reg_of rcg N_REG);
       let n := u32 (Z.lnot n) in
       let n := Z.land n mask in
       let n := u32 (n + m) in
       mret (m, n, cfg_mode cfg)
     else mret (0, 0, 0));
  mask ← defined (width_mask a (hid_width rcg));
  defined (calc_rate a parent_rate m n mode (cfg_hid_div mask cfg)).

(** *** __clk_rcg2_set_rate *)

(** Fractional (M/N) mode is programmed for this row. *)
Definition use_mnd (rcg : clk_rcg2) (f : freq_tbl) : bool :=
  negb (mnd_width rcg =? 0) && negb (f_n f =? 0).

(** The value written to the config register, before masking. *)
Definition cfg_value (rcg : clk_rcg2) (f : freq_tbl) (pm : Z) : Z :=
  let cfg := u32 (Z.shiftl (f_pre_div f) CFG_SRC_DIV_SHIFT) in
  let cfg := Z.lor cfg (u32 (Z.shiftl pm CFG_SRC_SEL_SHIFT)) in
  if use_mnd rcg f then Z.lor cfg CFG_MODE_DUAL_EDGE else cfg.

Definition cfg_mask (hid_mask : Z) : Z :=
  Z.lor hid_mask (Z.lor CFG_SRC_SEL_MASK CFG_MODE_MASK).

(** Second half of the function: the config register and the commit. *)
Definition set_rate_cfg (rcg : clk_rcg2) (f : freq_tbl) : M H Z :=
  mask ← defined (width_mask a (hid_width rcg));
  let mask := cfg_mask mask in
  pm ← defined (parent_map rcg !! Z.to_nat (f_src f));
  let cfg := cfg_value rcg f pm in
  ret ← regmap_update_bits (reg_of rcg CFG_REG) mask cfg;
  if negb (ret =? 0) then mret ret
  else update_config rcg.

Definition __clk_rcg2_set_rate (rcg : clk_rcg2) (rate : Z) : M H Z :=
  match find_freq (rcg_freq_tbl rcg) rate with
  | None => mret (- EINVAL)
  | Some (_, f) =>
      if use_mnd rcg f then
        mask ← defined (width_mask a (mnd_width rcg));
        ret ← regmap_update_bits (reg_of rcg M_REG) mask (u32 (f_m f));
        if negb (ret =? 0) then mret ret
        else
          ret ← regmap_update_bits (reg_of rcg N_REG) mask
                  (u32 (Z.lnot (f_n f - f_m f)));
          if negb (ret =? 0) then mret ret
          else
            ret ← regmap_update_bits (reg_of rcg D_REG) mask
                    (u32 (Z.lnot (f_n f)));
            if negb (ret =? 0) then mret ret
            else set_rate_cfg rcg f
      else set_rate_cfg rcg f
  end.

Definition clk_rcg2_set_rate (rcg : clk_rcg2) (rate parent_rate : Z)
  : M H Z :=
  __clk_rcg2_set_rate rcg rate.

Definition clk_rcg2_set_rate_and_parent (rcg : clk_rcg2)
    (rate parent_rate index : Z) : M H Z :=
  __clk_rcg2_set_rate rcg rate.

End Driver.

(** ** Rate negotiation *)

Section Determine.
(** The clock framework's side: parent handles, the parent of a given
    index, the current rate of a clock, and the flag that permits asking
    the parent for another rate. *)
Context {clk : Type}.
Variable a : abi.
Variable CLK_SET_RATE_PARENT : Z.
Variable clk_get_parent_by_index : Z -> clk.
Variable __clk_get_rate : clk -> Z.

(** The parent rate to request when the rate may propagate: the scaling
    of the row undone on the requested rate. *)
Definition parent_rate_for (f : freq_tbl) (rate : Z) : option Z :=
  let rate :=
    if negb (f_pre_div f =? 0) then
      let rate := rate / 2 in
      ulong a (rate * u32 (f_pre_div f + 1))
    else rate in
  if negb (f_n f =? 0) then
    let tmp := rate in
    let tmp := u64 (tmp * f_n f) in
    match do_div tmp (f_m f) with
    | None => None
    | Some tmp => Some (ulong a tmp)
    end
  else Some rate.

(** Result: the returned [long] and the new contents of [*p_rate] and
    [*p]; [None] is a division by zero. *)
Definition _freq_tbl_determine_rate (flags : Z) (f : freq_table)
    (rate p_rate : Z) (p : clk) : option (Z * Z * clk) :=
  match find_freq f rate with
  | None => Some (- EINVAL, p_rate, p)
  | Some (_, f) =>
      let p := clk_get_parent_by_index (f_src f) in
      match
        (if negb (Z.land flags CLK_SET_RATE_PARENT =? 0)
         then parent_rate_for f rate
         else Some (__clk_get_rate p))
      with
      | None => None
      | Some rate => Some (to_long a (f_freq f), rate, p)
      end
  end.

Definition clk_rcg2_determine_rate (rcg : clk_rcg2) (rate p_rate : Z)
    (p : clk) : option (Z * Z * clk) :=
  _freq_tbl_determine_rate (clk_flags rcg) (rcg_freq_tbl rcg) rate p_rate p.

End Determine.


(** ** A register file behind the regmap *)

(** Modelled from the spec: the register-access interface (the kernel's
    regmap, not part of these sources).  [read(offset)] yields the value or
    an error, [update_bits(offset, mask, value)] is a read-modify-write of
    the bits of the mask.  The model adds what a test bench needs: a script
    of access failures, and the number of reads of the command register for
    which the update bit stays set before the hardware clears it. *)
Record sim := Sim {
  regs : gmap Z Z;     (* 32-bit registers by offset, absent = 0 *)
  faults : list Z;     (* statuses of the coming accesses; 0 = success *)
  latency : nat        (* polls that still see the update bit set *)
}.

Definition sim_reg (s : sim) (reg : Z) : Z := default 0 (regs s !! reg).

(** The value a read-modify-write leaves in the register. *)
Definition merged (orig mask val : Z) : Z :=
  Z.lor (Z.land orig (Z.lnot mask)) (Z.land val mask).

(** Status of the next access and the rest of the failure script. *)
Definition next_fault (s : sim) : Z * list Z :=
  match faults s with
  | [] => (0, [])
  | e :: fs => (e, fs)
  end.

Definition sim_read (cmd : Z) (s : sim) (reg : Z) : sim * (Z * Z) :=
  let '(e, fs) := next_fault s in
  if negb (e =? 0) then (Sim (regs s) fs (latency s), (e, 0))
  else
    let v := sim_reg s reg in
    if (reg =? cmd) && negb (Z.land v CMD_UPDATE =? 0) then
      match latency s with
      | O =>
          let v' := Z.land v (Z.lnot CMD_UPDATE) in
          (Sim (<[reg := v']> (regs s)) fs O, (0, v'))
      | S l => (Sim (regs s) fs l, (0, v))
      end
    else (Sim (regs s) fs (latency s), (0, v)).

Definition sim_update_bits (s : sim) (reg mask val : Z) : sim * Z :=
  let '(e, fs) := next_fault s in
  if negb (e =? 0) then (Sim (regs s) fs (latency s), e)
  else
    let orig := sim_reg s reg in
    let tmp := merged orig mask val in
    (Sim (<[reg := tmp]> (regs s)) fs (latency s), 0).

(** The register file of an RCG whose command register is at [cmd]. *)
Definition sim_regmap (cmd : Z) : Regmap sim :=
  {| hw_read := sim_read cmd; hw_update_bits := sim_update_bits |}.

(** ** Observations on runs, and test benches *)


Definition is_read (e : event) : bool :=
  match e with EvRead _ _ _ => true | _ => false end.

Definition is_warning (e : event) : bool :=
  match e with EvWarn _ => true | _ => false end.

Definition is_update (e : event) : bool :=
  match e with EvUpdate _ _ _ _ => true | _ => false end.

Definition count_events (p : event -> bool) (evs : list event) : nat :=
  length (List.filter p evs).

(** What the wait loop can log with [count] iterations left, and the status
    it then returns. *)
Inductive wait_trace (reg : Z) (name : string)
  : nat -> Z -> list event -> Prop :=
| wait_timeout : wait_trace reg name 0 0 [EvWarn name]
| wait_failed count ret val :
    ret <> 0 -> wait_trace reg name (S count) ret [EvRead reg ret val]
| wait_cleared count cmd :
    Z.land cmd CMD_UPDATE = 0 ->
    wait_trace reg name (S count) 0 [EvRead reg 0 cmd]
| wait_busy count cmd ret evs :
    Z.land cmd CMD_UPDATE <> 0 ->
    wait_trace reg name count ret evs ->
    wait_trace reg name (S count) ret (EvRead reg 0 cmd :: EvDelay 1 :: evs).

(** The table of the test bench: a fractional row (19.2 MHz times 24/125),
    two integer rows and the closing row. *)
Definition demo_tbl : list freq_tbl :=
  [ {| f_freq := 3686400; f_src := 0; f_pre_div := 1; f_m := 24; f_n := 125 |};
    {| f_freq := 19200000; f_src := 0; f_pre_div := 1; f_m := 0; f_n := 0 |};
    {| f_freq := 50000000; f_src := 1; f_pre_div := 23; f_m := 0; f_n := 0 |};
    {| f_freq := 0; f_src := 0; f_pre_div := 0; f_m := 0; f_n := 0 |} ].

(** A generator with three parents, 8-bit M/N/D counters and a 5-bit
    divider field. *)
Definition demo_rcg : clk_rcg2 :=
  {| cmd_rcgr := 0x0660; mnd_width := 8; hid_width := 5;
     parent_map := [0; 1; 2]; rcg_freq_tbl := Some demo_tbl;
     num_parents := 3; clk_flags := 0; clk_name := "demo_clk_src" |}.

(** A quiet register file: all registers 0, no failures; the hardware
    acknowledges an update after [l] polls. *)
Definition quiet (l : nat) : world sim := World (Sim ∅ [] l) [].

(** The register file of the generator [rcg]. *)
Definition regmap_of (rcg : clk_rcg2) : Regmap sim :=
  sim_regmap (reg_of rcg CMD_REG).

(** A generator with 235 parents that all share the select value 0. *)
Definition crowded_rcg : clk_rcg2 :=
  {| cmd_rcgr := 0x0660; mnd_width := 8; hid_width := 5;
     parent_map := replicate 235 0; rcg_freq_tbl := Some demo_tbl;
     num_parents := 235; clk_flags := 0; clk_name := "crowded_clk_src" |}.

(** Its config register holds 0x100: select field 1. *)
Definition crowded_world : world sim :=
  World (Sim {[ reg_of crowded_rcg CFG_REG := 0x100 ]} [] 0) [].

(** The three counter writes of a fractional row, as logged. *)
Definition ev_M (rcg : clk_rcg2) (f : freq_tbl) (mask ret : Z) : event :=
  EvUpdate (reg_of rcg M_REG) mask (u32 (f_m f)) ret.
Definition ev_N (rcg : clk_rcg2) (f : freq_tbl) (mask ret : Z) : event :=
  EvUpdate (reg_of rcg N_REG) mask (u32 (Z.lnot (f_n f - f_m f))) ret.
Definition ev_D (rcg : clk_rcg2) (f : freq_tbl) (mask ret : Z) : event :=
  EvUpdate (reg_of rcg D_REG) mask (u32 (Z.lnot (f_n f))) ret.

(** The scenario of the specification: one row of 19.2 MHz and the closing
    row, asked for 50 MHz. *)
Definition xo_only_rcg : clk_rcg2 :=
  {| cmd_rcgr := 0x0660; mnd_width := 8; hid_width := 5;
     parent_map := [0];
     rcg_freq_tbl :=
       Some [ {| f_freq := 19200000; f_src := 0; f_pre_div := 1;
                 f_m := 0; f_n := 0 |};
              {| f_freq := 0; f_src := 0; f_pre_div := 0;
                 f_m := 0; f_n := 0 |} ];
     num_parents := 1; clk_flags := 0; clk_name := "xo_clk_src" |}.

(** A computation that leaves register [r] as it was. *)
Definition keeps {A : Type} (r : Z) (c : M sim A) : Prop :=
  forall w x w', c w = Done x w' -> sim_reg (hw w') r = sim_reg (hw w) r.

(** The config register after the write of [__clk_rcg2_set_rate] for row
    [f], when it held [cfg0] before and the divider field is no wider than
    eight bits. *)
Definition written_cfg (rcg : clk_rcg2) (f : freq_tbl) (pm cfg0 : Z) : Z :=
  merged cfg0 (cfg_mask (Z.ones (hid_width rcg))) (cfg_value rcg f pm).

(** A generator whose table asks for divider value 32 with a 5-bit divider
    field. *)
Definition wide_div_rcg : clk_rcg2 :=
  {| cmd_rcgr := 0x0660; mnd_width := 8; hid_width := 5;
     parent_map := [0];
     rcg_freq_tbl :=
       Some [ {| f_freq := 100000000; f_src := 0; f_pre_div := 32;
                 f_m := 0; f_n := 0 |} ];
     num_parents := 1; clk_flags := 0; clk_name := "wide_div_clk_src" |}.



(** ** Observations on whole runs *)

(** A register access that returned a nonzero status, and that status. *)
Definition failed (e : event) : bool :=
  match e with
  | EvRead _ ret _ => negb (ret =? 0)
  | EvUpdate _ _ _ ret => negb (ret =? 0)
  | _ => false
  end.

Definition status (e : event) : Z :=
  match e with
  | EvRead _ ret _ => ret
  | EvUpdate _ _ _ ret => ret
  | _ => 0
  end.

(** A log in which a failed access can only be the last event, and is then
    what the run returns. *)
Definition fail_stop (ret : Z) (evs : list event) : Prop :=
  forall pre e post,
    evs = pre ++ e :: post -> failed e = true -> post = [] /\ ret = status e.

(** Every completed run of [c] appends to the log a list of events that,
    with the result, satisfies [P]. *)
Definition logs {H A : Type} (c : M H A) (P : A -> list event -> Prop)
  : Prop :=
  forall w r w',
    c w = Done r w' -> exists evs, trace w' = trace w ++ evs /\ P r evs.

(** All updates of the log go to registers of the list. *)
Definition updates_within (allowed : list Z) (evs : list event) : Prop :=
  forall reg mask val ret, EvUpdate reg mask val ret ∈ evs -> reg ∈ allowed.

(** What a log says about the config register when the row [f] is
    programmed: every update of that register carries the mask and the value
    composed from the row and from [parent_map[f->src]], and a run that
    returned 0 made such an update, with status 0. *)
Definition cfg_write_of_row (a : abi) (rcg : clk_rcg2) (f : freq_tbl)
    (r : Z) (evs : list event) : Prop :=
  (forall mask val ret,
      EvUpdate (reg_of rcg CFG_REG) mask val ret ∈ evs ->
      exists hid_mask pm,
        width_mask a (hid_width rcg) = Some hid_mask /\
        parent_map rcg !! Z.to_nat (f_src f) = Some pm /\
        mask = cfg_mask hid_mask /\
        val = cfg_value rcg f pm) /\
  (r = 0 ->
   exists hid_mask pm,
     width_mask a (hid_width rcg) = Some hid_mask /\
     parent_map rcg !! Z.to_nat (f_src f) = Some pm /\
     EvUpdate (reg_of rcg CFG_REG) (cfg_mask hid_mask) (cfg_value rcg f pm) 0
       ∈ evs).

(** A generator whose only row is fractional and names the third parent,
    whose select code is 5. *)
Definition mnd_rcg : clk_rcg2 :=
  {| cmd_rcgr := 0x0660; mnd_width := 8; hid_width := 5;
     parent_map := [0; 1; 5];
     rcg_freq_tbl :=
       Some [ {| f_freq := 3686400; f_src := 2; f_pre_div := 1;
                 f_m := 24; f_n := 125 |};
              {| f_freq := 0; f_src := 0; f_pre_div := 0;
                 f_m := 0; f_n := 0 |} ];
     num_parents := 3; clk_flags := 0; clk_name := "mnd_clk_src" |}.

(** * The Zynq on-chip memory driver: block detection of
      arch/arm/mach-zynq/zynq_ocm.c *)

(** Width of [resource_size_t] (32 bits, or 64 with large physical
    addresses). *)
Inductive phys := PHYS32 | PHYS64.

Definition phys_wrap (ph : phys) (x : Z) : Z :=
  match ph with PHYS32 => x mod 2 ^ 32 | PHYS64 => x mod 2 ^ 64 end.

Definition ZYNQ_OCM_HIGHADDR : Z := 0xfffc0000.
Definition ZYNQ_OCM_LOWADDR : Z := 0x0.
Definition ZYNQ_OCM_BLOCK_SIZE : Z := 0x10000.
Definition ZYNQ_OCM_BLOCKS : Z := 4.

(** The fields of [struct resource] that the driver writes.  The flag value
    is the one of linux/ioport.h, which is not among these sources; nothing
    below depends on the number. *)
Record resource := { res_start : Z; res_end : Z; res_flags : Z }.

Definition IORESOURCE_MEM : Z := 0x200.

(** An entry of the array as [devm_kzalloc] leaves it. *)
Definition no_resource : resource :=
  {| res_start := 0; res_end := 0; res_flags := 0 |}.

(** [resource_size] of linux/ioport.h: [end - start + 1]. *)
Definition resource_size (ph : phys) (r : resource) : Z :=
  phys_wrap ph (res_end r - res_start r + 1).

(** With CONFIG_SMP, a new region at base 0 starts after the trampoline:
    [start += trampoline_code_size]. *)
Definition postpone_start (trampoline_code_size start : Z) : Z :=
  u32 (start + trampoline_code_size).

(** Reading entry [idx] of a C array; [None] outside the array. *)
Definition array_get {A : Type} (l : list A) (idx : Z) : option A :=
  if (0 <=? idx) && (idx <? Z.of_nat (length l)) then l !! Z.to_nat idx
  else None.

(** One iteration of the detection loop, for block [i]; [high] is
    [ocm_config & BIT(i)], [smp] the size of the trampoline when the kernel
    is built with CONFIG_SMP.  The state is the array [res] and [curr];
    [None] is an access outside the array. *)
Definition ocm_block (ph : phys) (smp : option Z) (high : bool) (i : Z)
    (st : list resource * Z) : option (list resource * Z) :=
  let '(res, curr) := st in
  let base := if high then ZYNQ_OCM_HIGHADDR else ZYNQ_OCM_LOWADDR in
  let start := u32 (u32 (i * ZYNQ_OCM_BLOCK_SIZE) + base) in
  let end_ := u32 (start + (ZYNQ_OCM_BLOCK_SIZE - 1)) in
  let last := u32 (curr - 1) in
  concat_ ←
    (if 0 <? i then
       prev ← array_get res last;
       Some (start =? phys_wrap ph (res_end prev + 1))
     else Some false);
  if concat_ : bool then
    prev ← array_get res last;
    Some (<[Z.to_nat last := {| res_start := res_start prev; res_end := end_;
                                res_flags := res_flags prev |}]> res, curr)
  else
    let start :=
      match smp with
      | Some size => if base =? 0 then postpone_start size start else start
      | None => start
      end in
    _ ← array_get res curr;
    Some (<[Z.to_nat curr := {| res_start := start; res_end := end_;
                                res_flags := IORESOURCE_MEM |}]> res,
          u32 (curr + 1)).

Definition ocm_config_bit (ocm_config i : Z) : bool :=
  negb (Z.land ocm_config (Z.shiftl 1 i) =? 0).

(** for (i = ...; i < ZYNQ_OCM_BLOCKS; i++), [todo] iterations left. *)
Fixpoint ocm_blocks (ph : phys) (smp : option Z) (high : Z -> bool)
    (i : Z) (todo : nat) (st : list resource * Z)
  : option (list resource * Z) :=
  match todo with
  | O => Some st
  | S todo' =>
      st' ← ocm_block ph smp (high i) i st;
      ocm_blocks ph smp high (i + 1) todo' st'
  end.

(** The first loop of [zynq_ocm_probe], from the zeroed array.  The
    [dev_dbg] lines of the loop print and change nothing; they are left
    out. *)
Definition ocm_detect (ph : phys) (smp : option Z) (ocm_config : Z)
  : option (list resource * Z) :=
  ocm_blocks ph smp (ocm_config_bit ocm_config) 0 (Z.to_nat ZYNQ_OCM_BLOCKS)
    (replicate (Z.to_nat ZYNQ_OCM_BLOCKS) no_resource, 0).

(** The second loop of [zynq_ocm_probe] takes the entries in order and
    stops at the first whose [end] is 0; these are the regions it hands to
    the pool. *)
Fixpoint ocm_pool_regions (res : list resource) : list resource :=
  match res with
  | [] => []
  | r :: res' => if res_end r =? 0 then [] else r :: ocm_pool_regions res'
  end.

(** The address range of block [i] under a configuration. *)
Definition ocm_block_start (ocm_config i : Z) : Z :=
  i * ZYNQ_OCM_BLOCK_SIZE +
  (if Z.testbit ocm_config i then ZYNQ_OCM_HIGHADDR else ZYNQ_OCM_LOWADDR).

Definition in_resource (addr : Z) (r : resource) : Prop :=
  res_start r <= addr <= res_end r.

(** An address lies in one of the regions of a list. *)
Fixpoint in_regions (addr : Z) (l : list resource) : Prop :=
  match l with
  | [] => False
  | r :: l' => in_resource addr r \/ in_regions addr l'
  end.

(** An address lies in block [i] (64 KiB) under a configuration. *)
Definition in_block (ocm_config i addr : Z) : Prop :=
  ocm_block_start ocm_config i <= addr
  <= ocm_block_start ocm_config i + (ZYNQ_OCM_BLOCK_SIZE - 1).

(** Region [r] does not overlap any region of the list. *)
Fixpoint apart_from (r : resource) (l : list resource) : Prop :=
  match l with
  | [] => True
  | r' :: l' =>
      (res_end r < res_start r' \/ res_end r' < res_start r) /\
      apart_from r l'
  end.

Fixpoint pairwise_apart (l : list resource) : Prop :=
  match l with
  | [] => True
  | r :: l' => apart_from r l' /\ pairwise_apart l'
  end.

Fixpoint total_size (ph : phys) (l : list resource) : Z :=
  match l with
  | [] => 0
  | r :: l' => resource_size ph r + total_size ph l'
  end.

(** The placement of the four blocks as a function of the block number. *)
Definition placement (b0 b1 b2 b3 : bool) (i : Z) : bool :=
  if i =? 0 then b0 else if i =? 1 then b1 else if i =? 2 then b2 else b3.

(** With CONFIG_SMP: the first [size] bytes of block [i], given up when the
    block is placed low ([low]) and opens a region ([opens]: it is block 0
    or the block before it is placed high). *)
Definition lost_head (low opens : bool) (size i addr : Z) : Prop :=
  if low && opens
  then i * ZYNQ_OCM_BLOCK_SIZE <= addr < i * ZYNQ_OCM_BLOCK_SIZE + size
  else False.

(** * Properties *)

(** ** Frequency table lookup *)

Lemma find_freq_from_found (l : list freq_tbl) (R : Z) :
  forall (i k : nat) (E : freq_tbl),
    find_freq_from i l R = Some (k, E) ->
    exists j : nat,
      k = (i + j)%nat /\ l !! j = Some E /\ R <= f_freq E /\ f_freq E <> 0 /\
      forall (j' : nat) (e : freq_tbl),
        (j' < j)%nat -> l !! j' = Some e -> f_freq e < R /\ f_freq e <> 0.
Proof.
  induction l as [|e l IH]; intros i k E Hf; simpl in Hf; [discriminate|].
  destruct (f_freq e =? 0) eqn:Hz; [discriminate|].
  apply Z.eqb_neq in Hz.
  destruct (R <=? f_freq e) eqn:Hle.
  - apply Z.leb_le in Hle. inversion Hf; subst k E.
    exists 0%nat. split; [lia|]. split; [reflexivity|].
    split; [exact Hle|]. split; [exact Hz|].
    intros j' e' Hlt; lia.
  - apply Z.leb_gt in Hle.
    destruct (IH _ _ _ Hf) as (j & -> & Hj & HR & HE & Hbefore).
    exists (S j). split; [lia|]. split; [exact Hj|].
    split; [exact HR|]. split; [exact HE|].
    intros j' e' Hlt He'. destruct j' as [|j']; simpl in He'.
    + inversion He'; subst e'. lia.
    + apply (Hbefore j'); [lia|exact He'].
Qed.

Lemma find_freq_from_above (l : list freq_tbl) (R : Z) :
  forall i : nat,
    (forall e, e ∈ l -> f_freq e < R) -> find_freq_from i l R = None.
Proof.
  induction l as [|e l IH]; intros i Hall; simpl; [reflexivity|].
  destruct (f_freq e =? 0); [reflexivity|].
  assert (He : f_freq e < R) by (apply Hall; left).
  apply Z.leb_gt in He. rewrite He.
  apply IH. intros e' He'. apply Hall. by right.
Qed.

(** C1.  Whenever [find_freq] returns a row [E] of the table, [E] is at
    least the requested rate and every row before it is below the rate; a
    NULL table, an empty table, a table opening with the closing row, and a
    rate above every row all give NULL; the returned row never has
    frequency 0, so the closing row is never returned. *)
Theorem find_freq_first_at_least (T : freq_table) (R : Z) :
  (forall (i : nat) (E : freq_tbl),
      find_freq T R = Some (i, E) ->
      exists l : list freq_tbl,
        T = Some l /\ l !! i = Some E /\
        R <= f_freq E /\ f_freq E <> 0 /\
        forall (j : nat) (e : freq_tbl),
          (j < i)%nat -> l !! j = Some e -> f_freq e < R) /\
  (T = None \/ T = Some [] -> find_freq T R = None) /\
  (forall e l, T = Some (e :: l) -> f_freq e = 0 -> find_freq T R = None) /\
  (forall l, T = Some l -> (forall e, e ∈ l -> f_freq e < R) ->
             find_freq T R = None).
Proof.
  repeat split.
  - intros i E Hf. destruct T as [l|]; [|discriminate].
    apply find_freq_from_found in Hf as (j & -> & Hj & HR & HE & Hb).
    exists l. repeat split; auto.
    intros j' e Hlt He. simpl in Hlt. by destruct (Hb j' e Hlt He).
  - intros [-> | ->]; reflexivity.
  - intros e l -> He. simpl. by rewrite He.
  - intros l -> Hall. simpl. by apply find_freq_from_above.
Qed.

(** The scenario of the specification: asked for 10 MHz, a table of
    19.2 MHz and the closing row yields the 19.2 MHz row. *)
Lemma find_freq_first_at_least_witness :
  exists l : list freq_tbl,
    rcg_freq_tbl xo_only_rcg = Some l /\
    l !! 0%nat = Some {| f_freq := 19200000; f_src := 0; f_pre_div := 1;
                         f_m := 0; f_n := 0 |} /\
    10000000 <= 19200000.
Proof.
  destruct (proj1 (find_freq_first_at_least (rcg_freq_tbl xo_only_rcg)
                     10000000) 0%nat
              {| f_freq := 19200000; f_src := 0; f_pre_div := 1;
                 f_m := 0; f_n := 0 |})
    as (l & Hl & Hrow & Hle & _).
  - reflexivity.
  - exists l. auto.
Defined.

(** ** Rate arithmetic *)

Lemma ulong_small (a : abi) (x : Z) :
  0 <= x < 2 ^ BITS_PER_LONG a -> ulong a x = x.
Proof. intros Hx. unfold ulong. by apply Z.mod_small. Qed.

Lemma u32_small (x : Z) : 0 <= x < 2 ^ 32 -> u32 x = x.
Proof. intros Hx. unfold u32. by apply Z.mod_small. Qed.





(** ** Commit protocol *)

Section Commit.
Context {H : Type} `{!Regmap H}.

Lemma update_config_wait_trace (rcg : clk_rcg2) (count : nat) :
  forall w : world H,
  exists ret w' evs,
    update_config_wait rcg count w = Done ret w' /\
    trace w' = trace w ++ evs /\
    wait_trace (reg_of rcg CMD_REG) (clk_name rcg) count ret evs.
Proof.
  induction count as [|count IH]; intros w.
  - exists 0, (World (hw w) (trace w ++ [EvWarn (clk_name rcg)])),
      [EvWarn (clk_name rcg)].
    split; [reflexivity|]. split; [reflexivity|]. constructor.
  - cbn [update_config_wait]. unfold mbind, M_bind, regmap_read.
    destruct (hw_read (hw w) (reg_of rcg CMD_REG)) as [h [ret cmd]] eqn:Hrd.
    destruct (ret =? 0) eqn:Hret; cbn [negb].
    + apply Z.eqb_eq in Hret; subst ret.
      destruct (Z.land cmd CMD_UPDATE =? 0) eqn:Hbit.
      * apply Z.eqb_eq in Hbit.
        eexists _, _, _. split; [reflexivity|]. split; [reflexivity|].
        by constructor.
      * apply Z.eqb_neq in Hbit.
        unfold udelay, log. cbn [hw trace].
        destruct (IH (World h ((trace w ++ [EvRead (reg_of rcg CMD_REG) 0 cmd])
                                 ++ [EvDelay 1])))
          as (ret & w' & evs & Hrun & Htr & Hwt).
        exists ret, w', (EvRead (reg_of rcg CMD_REG) 0 cmd :: EvDelay 1 :: evs).
        split; [exact Hrun|]. split.
        -- rewrite Htr. cbn [trace]. by rewrite <- !app_assoc.
        -- by constructor.
    + apply Z.eqb_neq in Hret.
      eexists _, _, _. split; [reflexivity|]. split; [reflexivity|].
      by constructor.
Qed.

End Commit.

Section WaitTrace.
Variables (reg : Z) (name : string).

Lemma wait_trace_polls n ret evs :
  wait_trace reg name n ret evs -> (count_events is_read evs <= n)%nat.
Proof.
  induction 1; unfold count_events in *; simpl in *; lia.
Qed.

Lemma wait_trace_reads_cmd n ret evs :
  wait_trace reg name n ret evs ->
  forall r ret' val, EvRead r ret' val ∈ evs -> r = reg.
Proof.
  induction 1; intros r ret' val' Hin.
  - apply list_elem_of_singleton in Hin. discriminate.
  - apply list_elem_of_singleton in Hin. congruence.
  - apply list_elem_of_singleton in Hin. congruence.
  - apply elem_of_cons in Hin as [Hin|Hin]; [congruence|].
    apply elem_of_cons in Hin as [Hin|Hin]; [discriminate|].
    eauto.
Qed.

Lemma wait_trace_early_exit n ret evs :
  wait_trace reg name n ret evs ->
  forall pre r cmd post,
    evs = pre ++ EvRead r 0 cmd :: post ->
    Z.land cmd CMD_UPDATE = 0 ->
    post = [] /\ ret = 0 /\ count_events is_warning evs = 0%nat.
Proof.
  induction 1; intros pre r c post Heq Hclear.
  - destruct pre as [|? [|? ?]]; discriminate.
  - destruct pre as [|? [|? ?]]; [|discriminate..].
    inversion Heq; subst. congruence.
  - destruct pre as [|? [|? ?]]; [|discriminate..].
    inversion Heq; subst. auto.
  - destruct pre as [|e1 [|e2 pre]].
    + inversion Heq; subst. congruence.
    + discriminate.
    + inversion Heq; subst.
      destruct (IHwait_trace pre r c post eq_refl Hclear) as (-> & -> & Hw).
      auto.
Qed.

Lemma wait_trace_exhausted n ret evs :
  wait_trace reg name n ret evs ->
  (forall r ret' cmd,
      EvRead r ret' cmd ∈ evs -> ret' = 0 /\ Z.land cmd CMD_UPDATE <> 0) ->
  count_events is_read evs = n /\ count_events is_warning evs = 1%nat /\
  ret = 0 /\ last evs = Some (EvWarn name).
Proof.
  induction 1; intros Hall.
  - auto.
  - destruct (Hall reg ret val) as [? _]; [left|congruence].
  - destruct (Hall reg 0 cmd) as [_ ?]; [left|congruence].
  - destruct IHwait_trace as (Hr & Hw & Hret & Hlast).
    { intros r ret' c Hin. apply (Hall r ret' c). by do 2 right. }
    unfold count_events in *. simpl. rewrite Hr, Hw.
    repeat split; auto.
    destruct evs; [discriminate|exact Hlast].
Qed.

Lemma wait_trace_error n ret evs :
  wait_trace reg name n ret evs ->
  ret <> 0 ->
  exists pre val, evs = pre ++ [EvRead reg ret val] /\
                  count_events is_warning evs = 0%nat.
Proof.
  induction 1; intros Hret; try congruence.
  - by exists [], val.
  - destruct (IHwait_trace Hret) as (pre & val & -> & Hw).
    exists (EvRead reg 0 cmd :: EvDelay 1 :: pre), val. auto.
Qed.

End WaitTrace.

(** C3.  Once the update bit has been set without error, [update_config]
    reads the command register at most 500 times and nothing else; a poll
    that sees the update bit clear is the last action and the result is 0,
    with no warning; when every poll succeeded and saw the bit set there
    were exactly 500 polls, exactly one warning, raised last, and the result
    is still 0; a nonzero result only ever comes from a failed read, never
    from exhausting the polls. *)
Theorem update_config_bounded_poll {H : Type} `{!Regmap H}
    (rcg : clk_rcg2) (w : world H) :
  (hw_update_bits (hw w) (reg_of rcg CMD_REG) CMD_UPDATE CMD_UPDATE).2 = 0 ->
  exists ret w' evs,
    update_config rcg w = Done ret w' /\
    trace w' =
      trace w ++ EvUpdate (reg_of rcg CMD_REG) CMD_UPDATE CMD_UPDATE 0 :: evs /\
    (count_events is_read evs <= 500)%nat /\
    count_events is_update evs = 0%nat /\
    (forall r ret' val, EvRead r ret' val ∈ evs -> r = reg_of rcg CMD_REG) /\
    (forall pre r cmd post,
        evs = pre ++ EvRead r 0 cmd :: post ->
        Z.land cmd CMD_UPDATE = 0 ->
        post = [] /\ ret = 0 /\ count_events is_warning evs = 0%nat) /\
    ((forall r ret' cmd,
         EvRead r ret' cmd ∈ evs -> ret' = 0 /\ Z.land cmd CMD_UPDATE <> 0) ->
     count_events is_read evs = 500%nat /\
     count_events is_warning evs = 1%nat /\
     last evs = Some (EvWarn (clk_name rcg)) /\
     ret = 0) /\
    (ret <> 0 ->
     exists pre val, evs = pre ++ [EvRead (reg_of rcg CMD_REG) ret val] /\
                     count_events is_warning evs = 0%nat).
Proof.
  intros Hset. unfold update_config, mbind, M_bind, regmap_update_bits.
  destruct (hw_update_bits (hw w) (reg_of rcg CMD_REG) CMD_UPDATE CMD_UPDATE)
    as [h ret0] eqn:Hupd.
  simpl in Hset; subst ret0. cbn [negb Z.eqb].
  destruct (update_config_wait_trace rcg 500
              (World h (trace w ++
                 [EvUpdate (reg_of rcg CMD_REG) CMD_UPDATE CMD_UPDATE 0])))
    as (ret & w' & evs & Hrun & Htr & Hwt).
  exists ret, w', evs. split; [exact Hrun|]. split.
  { rewrite Htr. cbn [trace]. by rewrite <- app_assoc. }
  split; [by eapply wait_trace_polls|].
  split.
  { clear -Hwt. induction Hwt; auto. }
  split; [by eapply wait_trace_reads_cmd|].
  split; [by eapply wait_trace_early_exit|].
  split.
  { intros Hall. destruct (wait_trace_exhausted _ _ _ _ _ Hwt Hall)
      as (? & ? & ? & ?). auto. }
  by eapply wait_trace_error.
Qed.

(** *** The commit protocol on the test bench *)

Lemma update_config_bounded_poll_witness :
  exists ret w' evs,
    @update_config sim (regmap_of demo_rcg) demo_rcg (quiet 3) = Done ret w' /\
    trace w' =
      trace (quiet 3) ++
      EvUpdate (reg_of demo_rcg CMD_REG) CMD_UPDATE CMD_UPDATE 0 :: evs /\
    (count_events is_read evs <= 500)%nat.
Proof.
  destruct (@update_config_bounded_poll sim (regmap_of demo_rcg) demo_rcg
              (quiet 3)) as (ret & w' & evs & Hrun & Htr & Hpolls & _).
  - reflexivity.
  - exists ret, w', evs. auto.
Defined.

Example update_config_acknowledged :
  exists w',
    @update_config sim (regmap_of demo_rcg) demo_rcg (quiet 2) = Done 0 w' /\
    trace w' =
      [ EvUpdate 0x0660 1 1 0;
        EvRead 0x0660 0 1; EvDelay 1;
        EvRead 0x0660 0 1; EvDelay 1;
        EvRead 0x0660 0 0 ].
Proof. eexists. split; vm_compute; reflexivity. Qed.

Example update_config_stalled :
  exists w',
    @update_config sim (regmap_of demo_rcg) demo_rcg (quiet 1000) = Done 0 w' /\
    count_events is_read (trace w') = 500%nat /\
    count_events is_warning (trace w') = 1%nat /\
    last (trace w') = Some (EvWarn "demo_clk_src").
Proof. eexists. split; [vm_compute; reflexivity|]. vm_compute. auto. Qed.

(** ** Enable query *)

Lemma land_bit (x n : Z) :
  0 <= n -> (Z.land x (Z.shiftl 1 n) =? 0) = negb (Z.testbit x n).
Proof.
  intros Hn. rewrite Z.shiftl_1_l.
  destruct (Z.testbit x n) eqn:Hb; simpl.
  - apply Z.eqb_neq. intros Hz.
    assert (Hc : Z.testbit (Z.land x (2 ^ n)) n = true).
    { rewrite Z.land_spec, Hb, Z.pow2_bits_true by lia. reflexivity. }
    rewrite Hz, Z.bits_0 in Hc. discriminate.
  - apply Z.eqb_eq. apply Z.bits_inj'. intros i Hi.
    rewrite Z.land_spec, Z.bits_0, Z.pow2_bits_eqb by lia.
    destruct (Z.eqb_spec n i) as [->|?]; [by rewrite Hb|].
    apply andb_false_r.
Qed.

(** What the code computes: with a successful read the result is 1 exactly
    when bit 31 ("root off") of the command register is set; a failed read
    gives the status of the read. *)
Lemma clk_rcg2_is_enabled_result {H : Type} `{!Regmap H}
    (rcg : clk_rcg2) (w : world H) :
  exists h ret cmd,
    hw_read (hw w) (reg_of rcg CMD_REG) = (h, (ret, cmd)) /\
    clk_rcg2_is_enabled rcg w =
      Done (if ret =? 0 then (if Z.testbit cmd 31 then 1 else 0) else ret)
           (World h (trace w ++ [EvRead (reg_of rcg CMD_REG) ret cmd])).
Proof.
  unfold clk_rcg2_is_enabled, mbind, M_bind, regmap_read.
  destruct (hw_read (hw w) (reg_of rcg CMD_REG)) as [h [ret cmd]].
  exists h, ret, cmd. split; [reflexivity|].
  destruct (ret =? 0); cbn [negb]; [|reflexivity].
  unfold CMD_ROOT_OFF. rewrite land_bit by lia.
  by destruct (Z.testbit cmd 31).
Qed.

(** C4.  On a register file whose command register reads 0, so that the
    "root off" bit is clear, [clk_rcg2_is_enabled] answers 0 (disabled);
    with only bit 31 set it answers 1 (enabled). *)
Theorem clk_rcg2_is_enabled_inverted :
  Z.testbit (sim_reg (hw (quiet 0)) (reg_of demo_rcg CMD_REG)) 31 = false /\
  (exists w',
      @clk_rcg2_is_enabled sim (regmap_of demo_rcg) demo_rcg (quiet 0)
      = Done 0 w') /\
  (exists w',
      @clk_rcg2_is_enabled sim (regmap_of demo_rcg) demo_rcg
        (World (Sim {[ reg_of demo_rcg CMD_REG := 0x80000000 ]} [] 0) [])
      = Done 1 w').
Proof.
  split; [reflexivity|].
  split; eexists; vm_compute; reflexivity.
Qed.

(** ** Parent query *)

Lemma parent_scan_hit (pm : list Z) (cfg : Z) (todo : nat) :
  forall i k : Z,
    0 <= i ->
    parent_scan pm cfg i todo = Hit k ->
    i <= k < i + Z.of_nat todo /\
    pm !! Z.to_nat k = Some cfg /\
    forall j v, i <= j < k -> pm !! Z.to_nat j = Some v -> v <> cfg.
Proof.
  induction todo as [|todo IH]; intros i k Hi Hs; simpl in Hs; [discriminate|].
  destruct (pm !! Z.to_nat i) as [v|] eqn:Hv; [|discriminate].
  destruct (Z.eqb_spec cfg v) as [->|Hne].
  - inversion Hs; subst k. split; [lia|]. split; [exact Hv|].
    intros j v' Hj. lia.
  - destruct (IH (i + 1) k ltac:(lia) Hs) as (Hk & Hpk & Hbefore).
    split; [lia|]. split; [exact Hpk|].
    intros j v' Hj Hv'. destruct (Z.eq_dec j i) as [->|Hji].
    + congruence.
    + apply (Hbefore j v'); [lia|exact Hv'].
Qed.

Lemma parent_scan_oob (pm : list Z) (cfg : Z) (todo : nat) :
  forall i : Z,
    0 <= i ->
    parent_scan pm cfg i todo = OutOfBounds ->
    exists j, i <= j < i + Z.of_nat todo /\ pm !! Z.to_nat j = None.
Proof.
  induction todo as [|todo IH]; intros i Hi Hs; simpl in Hs; [discriminate|].
  destruct (pm !! Z.to_nat i) as [v|] eqn:Hv.
  - destruct (cfg =? v); [discriminate|].
    destruct (IH (i + 1) ltac:(lia) Hs) as (j & Hj & Hnone).
    exists j. split; [lia|exact Hnone].
  - exists i. split; [lia|exact Hv].
Qed.

Lemma parent_scan_miss (pm : list Z) (cfg : Z) (todo : nat) :
  forall i : Z,
    0 <= i ->
    parent_scan pm cfg i todo = Miss ->
    forall j, i <= j < i + Z.of_nat todo ->
              exists v, pm !! Z.to_nat j = Some v /\ v <> cfg.
Proof.
  induction todo as [|todo IH]; intros i Hi Hs j Hj; simpl in Hs; [lia|].
  destruct (pm !! Z.to_nat i) as [v|] eqn:Hv; [|discriminate].
  destruct (Z.eqb_spec cfg v) as [->|Hne]; [discriminate|].
  destruct (Z.eq_dec j i) as [->|Hji].
  - exists v. auto.
  - apply (IH (i + 1)); [lia|exact Hs|lia].
Qed.

(** What [clk_rcg2_get_parent] returns after a successful read: the least
    index below the number of parents whose select code is the field read,
    cut to 8 bits; and 234, the error code cut to 8 bits, when there is
    none. *)
Lemma clk_rcg2_get_parent_result {H : Type} `{!Regmap H}
    (rcg : clk_rcg2) (w : world H) (h : H) (cfg : Z) :
  hw_read (hw w) (reg_of rcg CFG_REG) = (h, (0, cfg)) ->
  0 <= num_parents rcg ->
  let w' := World h (trace w ++ [EvRead (reg_of rcg CFG_REG) 0 cfg]) in
  match clk_rcg2_get_parent rcg w with
  | Undefined =>
      exists j, 0 <= j < num_parents rcg /\
                parent_map rcg !! Z.to_nat j = None
  | Done r w1 =>
      w1 = w' /\
      ((exists i, r = u8 i /\ 0 <= i < num_parents rcg /\
                  parent_map rcg !! Z.to_nat i = Some (cfg_src_sel cfg) /\
                  forall j v, 0 <= j < i ->
                              parent_map rcg !! Z.to_nat j = Some v ->
                              v <> cfg_src_sel cfg) \/
       (r = 234 /\
        forall j, 0 <= j < num_parents rcg ->
                  exists v, parent_map rcg !! Z.to_nat j = Some v /\
                            v <> cfg_src_sel cfg))
  end.
Proof.
  intros Hread Hnum. cbv zeta.
  unfold clk_rcg2_get_parent, mbind, M_bind, regmap_read.
  rewrite Hread. cbn [Z.eqb negb].
  destruct (parent_scan (parent_map rcg) (cfg_src_sel cfg) 0
              (Z.to_nat (num_parents rcg))) as [i| |] eqn:Hscan.
  - split; [reflexivity|]. left. exists i.
    apply parent_scan_hit in Hscan as (Hi & Hpi & Hbefore); [|lia].
    split; [reflexivity|]. split; [lia|]. split; [exact Hpi|exact Hbefore].
  - split; [reflexivity|]. right. split; [reflexivity|].
    intros j Hj. apply (parent_scan_miss _ _ _ 0 ltac:(lia) Hscan). lia.
  - apply parent_scan_oob in Hscan as (j & Hj & Hnone); [|lia].
    exists j. split; [lia|exact Hnone].
Qed.

(** C9.  With 235 parents and the select field reading 1, a value that no
    parent maps to, [clk_rcg2_get_parent] returns 234: the error code cut
    to 8 bits, which is here the index of a parent. *)
Theorem clk_rcg2_get_parent_error_is_index :
  cfg_src_sel (sim_reg (hw crowded_world) (reg_of crowded_rcg CFG_REG)) = 1 /\
  (1 ∉ parent_map crowded_rcg) /\
  (exists w',
      @clk_rcg2_get_parent sim (regmap_of crowded_rcg) crowded_rcg
        crowded_world
      = Done 234 w') /\
  0 <= 234 < num_parents crowded_rcg /\
  u8 (- EINVAL) = 234.
Proof.
  split; [reflexivity|]. split.
  { unfold crowded_rcg; cbn [parent_map]. intros Hin.
    apply elem_of_replicate in Hin as [? _]. discriminate. }
  split; [eexists; vm_compute; reflexivity|].
  split; [simpl; lia|reflexivity].
Qed.

(** ** Rate programming *)

(** C5.  For a device with a nonzero M/N/D width (small enough for the mask
    to be defined) and a matched row with nonzero [n], [__clk_rcg2_set_rate]
    first updates the M register with [m], then the N register with
    [~(n - m)], then the D register with [~n], each under the width mask.
    The first of these updates that fails ends the run: its status is the
    result and nothing is logged after it.  Only when all three succeed does
    the run go on to the config register. *)
Theorem set_rate_mnd_sequence {H : Type} `{!Regmap H} (a : abi)
    (rcg : clk_rcg2) (rate : Z) (w : world H)
    (i : nat) (f : freq_tbl) (mask : Z) :
  find_freq (rcg_freq_tbl rcg) rate = Some (i, f) ->
  mnd_width rcg <> 0 ->
  f_n f <> 0 ->
  width_mask a (mnd_width rcg) = Some mask ->
  exists h1 r1,
    hw_update_bits (hw w) (reg_of rcg M_REG) mask (u32 (f_m f)) = (h1, r1) /\
    ((r1 <> 0 /\
      __clk_rcg2_set_rate a rcg rate w =
        Done r1 (World h1 (trace w ++ [ev_M rcg f mask r1])))
     \/
     (r1 = 0 /\
      exists h2 r2,
        hw_update_bits h1 (reg_of rcg N_REG) mask
          (u32 (Z.lnot (f_n f - f_m f))) = (h2, r2) /\
        ((r2 <> 0 /\
          __clk_rcg2_set_rate a rcg rate w =
            Done r2 (World h2 (trace w ++
                                 [ev_M rcg f mask 0; ev_N rcg f mask r2])))
         \/
         (r2 = 0 /\
          exists h3 r3,
            hw_update_bits h2 (reg_of rcg D_REG) mask (u32 (Z.lnot (f_n f)))
              = (h3, r3) /\
            ((r3 <> 0 /\
              __clk_rcg2_set_rate a rcg rate w =
                Done r3 (World h3 (trace w ++
                                     [ev_M rcg f mask 0; ev_N rcg f mask 0;
                                      ev_D rcg f mask r3])))
             \/
             (r3 = 0 /\
              __clk_rcg2_set_rate a rcg rate w =
                set_rate_cfg a rcg f
                  (World h3 (trace w ++
                               [ev_M rcg f mask 0; ev_N rcg f mask 0;
                                ev_D rcg f mask 0])))))))).
Proof.
  intros Hfind Hw Hn Hmask.
  unfold __clk_rcg2_set_rate. rewrite Hfind.
  assert (Huse : use_mnd rcg f = true).
  { unfold use_mnd. apply Z.eqb_neq in Hw, Hn. by rewrite Hw, Hn. }
  rewrite Huse, Hmask.
  unfold mbind, M_bind, defined, regmap_update_bits, ev_M, ev_N, ev_D.
  cbn [hw trace].
  destruct (hw_update_bits (hw w) (reg_of rcg M_REG) mask (u32 (f_m f)))
    as [h1 r1].
  exists h1, r1. split; [reflexivity|].
  destruct (Z.eqb_spec r1 0) as [->|Hr1]; cbn [negb]; [right|left; auto].
  split; [reflexivity|]. cbn [hw trace].
  destruct (hw_update_bits h1 (reg_of rcg N_REG) mask
              (u32 (Z.lnot (f_n f - f_m f)))) as [h2 r2].
  exists h2, r2. split; [reflexivity|].
  destruct (Z.eqb_spec r2 0) as [->|Hr2]; cbn [negb]; [right|left].
  2:{ split; [exact Hr2|]. by rewrite <- app_assoc. }
  split; [reflexivity|]. cbn [hw trace].
  destruct (hw_update_bits h2 (reg_of rcg D_REG) mask (u32 (Z.lnot (f_n f))))
    as [h3 r3].
  exists h3, r3. split; [reflexivity|].
  destruct (Z.eqb_spec r3 0) as [->|Hr3]; cbn [negb]; [right|left].
  - split; [reflexivity|]. by rewrite <- !app_assoc.
  - split; [exact Hr3|]. by rewrite <- !app_assoc.
Qed.

Lemma set_rate_mnd_sequence_witness :
  exists h1 r1,
    @hw_update_bits sim (regmap_of demo_rcg) (hw (quiet 0))
      (reg_of demo_rcg M_REG) 255 (u32 24) = (h1, r1).
Proof.
  destruct (@set_rate_mnd_sequence sim (regmap_of demo_rcg) ILP32 demo_rcg
              3686400 (quiet 0) 0%nat
              {| f_freq := 3686400; f_src := 0; f_pre_div := 1;
                 f_m := 24; f_n := 125 |} 255)
    as (h1 & r1 & Hupd & _).
  - reflexivity.
  - simpl; lia.
  - simpl; lia.
  - reflexivity.
  - exists h1, r1. exact Hupd.
Defined.

(** A failing N write: the M write is logged, then the N write with its
    status 5, and that is all. *)
Example set_rate_n_write_fails :
  @__clk_rcg2_set_rate sim (regmap_of demo_rcg) ILP32 demo_rcg 3686400
    (World (Sim ∅ [0; 5] 0) [])
  = Done 5 (World (Sim {[ 0x0668 := 24 ]} [] 0)
              [ EvUpdate 0x0668 255 24 0;
                EvUpdate 0x066c 255 (u32 (Z.lnot (125 - 24))) 5 ]).
Proof. vm_compute. reflexivity. Qed.

(** A complete run: M, N and D hold the masked values, the config register
    the divider and the dual-edge mode. *)
Example set_rate_fractional_row :
  exists w',
    @__clk_rcg2_set_rate sim (regmap_of demo_rcg) ILP32 demo_rcg 3686400
      (quiet 0) = Done 0 w' /\
    sim_reg (hw w') 0x0668 = 24 /\
    sim_reg (hw w') 0x066c = 154 /\
    sim_reg (hw w') 0x0670 = 130 /\
    sim_reg (hw w') 0x0664 = 0x2001.
Proof. eexists. split; [vm_compute; reflexivity|]. vm_compute. auto. Qed.

(** Read back by [clk_rcg2_recalc_rate] from a 19.2 MHz parent, the
    fractional row gives its own frequency. *)
Example recalc_after_set_rate :
  exists w' w'',
    @__clk_rcg2_set_rate sim (regmap_of demo_rcg) ILP32 demo_rcg 3686400
      (quiet 0) = Done 0 w' /\
    @clk_rcg2_recalc_rate sim (regmap_of demo_rcg) ILP32 demo_rcg 19200000 w'
      = Done 3686400 w''.
Proof.
  eexists _, _. split; [vm_compute; reflexivity|]. vm_compute. reflexivity.
Qed.

(** C7.  When the table is NULL, or the requested rate is above the
    frequency of every row, the three set-rate entry points return -EINVAL
    and leave the world as it was: no register access is made and nothing
    is logged. *)
Theorem set_rate_no_match_touches_nothing {H : Type} `{!Regmap H} (a : abi)
    (rcg : clk_rcg2) (rate : Z) (w : world H) :
  (rcg_freq_tbl rcg = None \/
   exists l, rcg_freq_tbl rcg = Some l /\ forall e, e ∈ l -> f_freq e < rate) ->
  __clk_rcg2_set_rate a rcg rate w = Done (- EINVAL) w /\
  (forall parent_rate,
      clk_rcg2_set_rate a rcg rate parent_rate w = Done (- EINVAL) w) /\
  (forall parent_rate index,
      clk_rcg2_set_rate_and_parent a rcg rate parent_rate index w
      = Done (- EINVAL) w).
Proof.
  intros Hno.
  assert (Hfind : find_freq (rcg_freq_tbl rcg) rate = None).
  { destruct Hno as [-> | (l & -> & Hall)]; [reflexivity|].
    by apply find_freq_from_above. }
  assert (Hrun : __clk_rcg2_set_rate a rcg rate w = Done (- EINVAL) w).
  { unfold __clk_rcg2_set_rate. by rewrite Hfind. }
  auto.
Qed.

Lemma set_rate_no_match_touches_nothing_witness :
  @__clk_rcg2_set_rate sim (regmap_of xo_only_rcg) ILP32 xo_only_rcg 50000000
    (quiet 0) = Done (-22) (quiet 0).
Proof.
  apply (@set_rate_no_match_touches_nothing sim (regmap_of xo_only_rcg) ILP32
           xo_only_rcg 50000000 (quiet 0)).
  right. eexists. split; [reflexivity|].
  intros e He. repeat (apply elem_of_cons in He as [->|He]; [simpl; lia|]).
  by apply elem_of_nil in He.
Defined.

(** ** The register file: frame properties *)

Lemma reg_of_inj (rcg : clk_rcg2) (x y : Z) :
  0 <= x < 2 ^ 32 -> 0 <= y < 2 ^ 32 ->
  reg_of rcg x = reg_of rcg y -> x = y.
Proof.
  unfold reg_of, u32. change (2 ^ 32) with 4294967296. intros Hx Hy Heq.
  pose proof (Z.div_mod (cmd_rcgr rcg + x) 4294967296 ltac:(lia)).
  pose proof (Z.div_mod (cmd_rcgr rcg + y) 4294967296 ltac:(lia)).
  pose proof (Z.mod_pos_bound (cmd_rcgr rcg + x) 4294967296 ltac:(lia)).
  lia.
Qed.

Lemma sim_update_bits_spec (s : sim) (reg mask val : Z) :
  exists s' ret,
    sim_update_bits s reg mask val = (s', ret) /\
    ((ret <> 0 /\ forall r, sim_reg s' r = sim_reg s r) \/
     (ret = 0 /\ sim_reg s' reg = merged (sim_reg s reg) mask val /\
      forall r, r <> reg -> sim_reg s' r = sim_reg s r)).
Proof.
  unfold sim_update_bits. destruct (next_fault s) as [e fs].
  destruct (Z.eqb_spec e 0) as [->|He]; cbn [negb].
  - eexists _, _. split; [reflexivity|]. right. split; [reflexivity|].
    split.
    + unfold sim_reg at 1; cbn [regs]. by rewrite lookup_insert_eq.
    + intros r Hr. unfold sim_reg at 1; cbn [regs].
      by rewrite lookup_insert_ne.
  - eexists _, _. split; [reflexivity|]. left. auto.
Qed.

Lemma sim_read_spec (cmd : Z) (s : sim) (reg : Z) :
  exists s' ret v,
    sim_read cmd s reg = (s', (ret, v)) /\
    (forall r, r <> cmd -> sim_reg s' r = sim_reg s r) /\
    (ret = 0 -> reg <> cmd -> v = sim_reg s reg).
Proof.
  unfold sim_read. destruct (next_fault s) as [e fs].
  destruct (Z.eqb_spec e 0) as [->|He]; cbn [negb].
  - destruct (Z.eqb_spec reg cmd) as [->|Hne]; cbn [andb].
    + destruct (Z.land (sim_reg s cmd) CMD_UPDATE =? 0); cbn [negb].
      * eexists _, _, _. split; [reflexivity|]. split; [auto|congruence].
      * destruct (latency s).
        -- eexists _, _, _. split; [reflexivity|]. split; [|congruence].
           intros r Hr. unfold sim_reg at 1; cbn [regs].
           by rewrite lookup_insert_ne.
        -- eexists _, _, _. split; [reflexivity|]. split; [auto|congruence].
    + eexists _, _, _. split; [reflexivity|]. split; auto.
  - eexists _, _, _. split; [reflexivity|]. split; [auto|congruence].
Qed.

Section Frame.
Variable rcg : clk_rcg2.

Lemma keeps_ret {A} r (x : A) : keeps r (mret x).
Proof. intros w y w' Hrun. by inversion Hrun. Qed.

Lemma keeps_log r e : keeps r (log e).
Proof. intros w y w' Hrun. by inversion Hrun. Qed.

Lemma keeps_bind {A B} r (c : M sim A) (k : A -> M sim B) :
  keeps r c -> (forall x, keeps r (k x)) -> keeps r (c ≫= k).
Proof.
  intros Hc Hk w y w' Hrun. unfold mbind, M_bind in Hrun.
  destruct (c w) as [x w1|] eqn:Hcw; [|discriminate].
  rewrite (Hk x _ _ _ Hrun). eauto.
Qed.

Lemma keeps_read r reg :
  r <> reg_of rcg CMD_REG ->
  keeps r (regmap_read (Regmap0 := regmap_of rcg) reg).
Proof.
  intros Hr w [ret v] w' Hrun. unfold regmap_read in Hrun.
  cbn [hw_read regmap_of sim_regmap] in Hrun.
  destruct (sim_read_spec (reg_of rcg CMD_REG) (hw w) reg)
    as (s' & ret' & v' & Hrd & Hkeep & _).
  rewrite Hrd in Hrun. inversion Hrun; subst. cbn [hw]. auto.
Qed.

Lemma keeps_update r reg mask val :
  r <> reg ->
  keeps r (regmap_update_bits (Regmap0 := regmap_of rcg) reg mask val).
Proof.
  intros Hr w ret w' Hrun. unfold regmap_update_bits in Hrun.
  cbn [hw_update_bits regmap_of sim_regmap] in Hrun.
  destruct (sim_update_bits_spec (hw w) reg mask val)
    as (s' & ret' & Hupd & Hcases).
  rewrite Hupd in Hrun. inversion Hrun; subst. cbn [hw].
  destruct Hcases as [[_ Hsame]|(_ & _ & Hsame)]; auto.
Qed.

Lemma keeps_update_config_wait r count :
  r <> reg_of rcg CMD_REG ->
  keeps r (update_config_wait (Regmap0 := regmap_of rcg) rcg count).
Proof.
  intros Hr. induction count as [|count IH]; cbn [update_config_wait].
  - apply keeps_bind; [apply keeps_log|]. intros _. apply keeps_ret.
  - apply keeps_bind; [by apply keeps_read|]. intros [ret cmd].
    destruct (negb (ret =? 0)); [apply keeps_ret|].
    destruct (Z.land cmd CMD_UPDATE =? 0); [apply keeps_ret|].
    apply keeps_bind; [apply keeps_log|]. intros _. exact IH.
Qed.

Lemma keeps_update_config r :
  r <> reg_of rcg CMD_REG ->
  keeps r (update_config (Regmap0 := regmap_of rcg) rcg).
Proof.
  intros Hr. unfold update_config.
  apply keeps_bind; [by apply keeps_update|]. intros ret.
  destruct (negb (ret =? 0)); [apply keeps_ret|].
  by apply keeps_update_config_wait.
Qed.

End Frame.

Lemma bind_done {H A B : Type} (c : M H A) (k : A -> M H B)
    (w : world H) (y : B) (w' : world H) :
  (c ≫= k) w = Done y w' ->
  exists x w1, c w = Done x w1 /\ k x w1 = Done y w'.
Proof.
  unfold mbind, M_bind. destruct (c w) as [x w1|]; [|discriminate].
  intros Hk. by exists x, w1.
Qed.

Lemma defined_done {H A : Type} (o : option A) (w : world H) (x : A)
    (w' : world H) :
  defined o w = Done x w' -> o = Some x /\ w' = w.
Proof.
  unfold defined. destruct o; [|discriminate].
  intros Hd. inversion Hd. auto.
Qed.

Lemma ret_done {H A : Type} (x y : A) (w w' : world H) :
  mret (M := M H) x w = Done y w' -> x = y /\ w' = w.
Proof. intros Hd. inversion Hd. auto. Qed.

Section Readback.
Variable a : abi.
Variable rcg : clk_rcg2.

Lemma cfg_is_not_cmd : reg_of rcg CFG_REG <> reg_of rcg CMD_REG.
Proof.
  intros Heq. apply reg_of_inj in Heq; [discriminate|..];
    unfold CFG_REG, CMD_REG; lia.
Qed.

Lemma set_rate_cfg_writes (f : freq_tbl) (w w' : world sim) (hm pm : Z) :
  width_mask a (hid_width rcg) = Some hm ->
  parent_map rcg !! Z.to_nat (f_src f) = Some pm ->
  set_rate_cfg (Regmap0 := regmap_of rcg) a rcg f w = Done 0 w' ->
  sim_reg (hw w') (reg_of rcg CFG_REG) =
    merged (sim_reg (hw w) (reg_of rcg CFG_REG)) (cfg_mask hm)
      (cfg_value rcg f pm).
Proof.
  intros Hhm Hpm Hrun. unfold set_rate_cfg in Hrun. rewrite Hhm, Hpm in Hrun.
  apply bind_done in Hrun as (x & w0 & Hd & Hrun).
  apply defined_done in Hd as [Hx ->]. inversion Hx; subst x.
  apply bind_done in Hrun as (y & w0 & Hd & Hrun).
  apply defined_done in Hd as [Hy ->]. inversion Hy; subst y.
  apply bind_done in Hrun as (ret & w1 & Hupd & Hrun).
  unfold regmap_update_bits in Hupd.
  cbn [hw_update_bits regmap_of sim_regmap] in Hupd.
  destruct (sim_update_bits_spec (hw w) (reg_of rcg CFG_REG) (cfg_mask hm)
              (cfg_value rcg f pm)) as (s' & ret' & Hs & Hcases).
  rewrite Hs in Hupd. inversion Hupd; subst ret' w1. clear Hupd.
  destruct Hcases as [[Hret _]|(-> & Hnew & _)].
  - apply Z.eqb_neq in Hret. rewrite Hret in Hrun. cbn [negb] in Hrun.
    apply ret_done in Hrun as [-> _]. discriminate.
  - cbn [Z.eqb negb] in Hrun.
    rewrite (keeps_update_config rcg _ cfg_is_not_cmd _ _ _ Hrun).
    exact Hnew.
Qed.

Lemma set_rate_reaches_cfg (rate : Z) (w w' : world sim)
    (i : nat) (f : freq_tbl) :
  find_freq (rcg_freq_tbl rcg) rate = Some (i, f) ->
  __clk_rcg2_set_rate (Regmap0 := regmap_of rcg) a rcg rate w
    = Done 0 w' ->
  exists w1,
    set_rate_cfg (Regmap0 := regmap_of rcg) a rcg f w1 = Done 0 w' /\
    sim_reg (hw w1) (reg_of rcg CFG_REG) = sim_reg (hw w) (reg_of rcg CFG_REG).
Proof.
  intros Hfind Hrun. unfold __clk_rcg2_set_rate in Hrun.
  rewrite Hfind in Hrun.
  destruct (use_mnd rcg f); [|by exists w].
  assert (Hne : forall off, 0 <= off < 2 ^ 32 -> off <> CFG_REG ->
                            reg_of rcg CFG_REG <> reg_of rcg off).
  { intros off Hoff Hd Heq. apply reg_of_inj in Heq; [congruence| |exact Hoff].
    unfold CFG_REG; lia. }
  apply bind_done in Hrun as (mask & w0 & Hd & Hrun).
  apply defined_done in Hd as [_ ->].
  apply bind_done in Hrun as (r1 & w1 & Hu1 & Hrun).
  apply (keeps_update rcg (reg_of rcg CFG_REG)) in Hu1;
    [|apply Hne; unfold M_REG, CFG_REG; lia].
  destruct (negb (r1 =? 0)) eqn:Hr1.
  { apply ret_done in Hrun as [-> _]. discriminate. }
  apply bind_done in Hrun as (r2 & w2 & Hu2 & Hrun).
  apply (keeps_update rcg (reg_of rcg CFG_REG)) in Hu2;
    [|apply Hne; unfold N_REG, CFG_REG; lia].
  destruct (negb (r2 =? 0)) eqn:Hr2.
  { apply ret_done in Hrun as [-> _]. discriminate. }
  apply bind_done in Hrun as (r3 & w3 & Hu3 & Hrun).
  apply (keeps_update rcg (reg_of rcg CFG_REG)) in Hu3;
    [|apply Hne; unfold D_REG, CFG_REG; lia].
  destruct (negb (r3 =? 0)) eqn:Hr3.
  { apply ret_done in Hrun as [-> _]. discriminate. }
  exists w3. split; [exact Hrun|]. congruence.
Qed.

End Readback.

(** ** Config register fields *)

Lemma merged_testbit (orig mask val i : Z) :
  0 <= i ->
  Z.testbit (merged orig mask val) i =
    if Z.testbit mask i then Z.testbit val i else Z.testbit orig i.
Proof.
  intros Hi. unfold merged.
  rewrite Z.lor_spec, !Z.land_spec, Z.lnot_spec by lia.
  destruct (Z.testbit mask i), (Z.testbit val i), (Z.testbit orig i);
    reflexivity.
Qed.

Lemma testbit_small (x k i : Z) :
  0 <= x < 2 ^ k -> 0 <= k <= i -> Z.testbit x i = false.
Proof.
  intros Hx Hk. rewrite <- (Z.mod_small x (2 ^ k)) by lia.
  apply Z.mod_pow2_bits_high. lia.
Qed.

Lemma width_mask_ones (a : abi) (width hm : Z) :
  width_mask a width = Some hm -> 0 <= width <= 8 -> hm = Z.ones width.
Proof.
  unfold width_mask, BIT. intros Hm Hw.
  destruct ((0 <=? width) && (width <? BITS_PER_LONG a)); [|discriminate].
  inversion Hm. rewrite Z.ones_equiv, Z.shiftl_1_l.
  apply u32_small.
  assert (2 ^ width <= 2 ^ 8) by (apply Z.pow_le_mono_r; lia).
  assert (0 < 2 ^ width) by (apply Z.pow_pos_nonneg; lia).
  change (2 ^ 8) with 256 in *. change (2 ^ 32) with 4294967296. lia.
Qed.

Lemma sel_mask_testbit (i : Z) :
  0 <= i -> Z.testbit CFG_SRC_SEL_MASK i = (8 <=? i) && (i <? 11).
Proof.
  intros Hi. unfold CFG_SRC_SEL_MASK, CFG_SRC_SEL_SHIFT.
  change 7 with (Z.ones 3).
  rewrite Z.shiftl_spec by lia.
  destruct (Z.leb_spec 8 i).
  - rewrite Z.testbit_ones_nonneg by lia. simpl.
    destruct (Z.ltb_spec (i - 8) 3), (Z.ltb_spec i 11); lia || reflexivity.
  - by rewrite Z.testbit_neg_r by lia.
Qed.

Lemma mode_mask_testbit (i : Z) :
  0 <= i -> Z.testbit CFG_MODE_MASK i = (12 <=? i) && (i <? 14).
Proof.
  intros Hi. unfold CFG_MODE_MASK, CFG_MODE_SHIFT.
  change 3 with (Z.ones 2).
  rewrite Z.shiftl_spec by lia.
  destruct (Z.leb_spec 12 i).
  - rewrite Z.testbit_ones_nonneg by lia. simpl.
    destruct (Z.ltb_spec (i - 12) 2), (Z.ltb_spec i 14); lia || reflexivity.
  - by rewrite Z.testbit_neg_r by lia.
Qed.

Lemma cfg_mask_testbit (width i : Z) :
  0 <= width -> 0 <= i ->
  Z.testbit (cfg_mask (Z.ones width)) i =
    (i <? width) || ((8 <=? i) && (i <? 11)) || ((12 <=? i) && (i <? 14)).
Proof.
  intros Hw Hi. unfold cfg_mask.
  rewrite !Z.lor_spec, sel_mask_testbit, mode_mask_testbit by lia.
  rewrite Z.testbit_ones_nonneg by lia.
  by rewrite orb_assoc.
Qed.

(** The bits of the value the driver composes, when the divider fits its
    field of at most eight bits and the select code its three. *)
Lemma cfg_value_testbit (rcg : clk_rcg2) (f : freq_tbl) (pm i : Z) :
  0 <= hid_width rcg <= 8 ->
  0 <= f_pre_div f < 2 ^ hid_width rcg ->
  0 <= pm < 8 ->
  0 <= i ->
  Z.testbit (cfg_value rcg f pm) i =
    if i <? hid_width rcg then Z.testbit (f_pre_div f) i
    else if (8 <=? i) && (i <? 11) then Z.testbit pm (i - 8)
    else (i =? 13) && use_mnd rcg f.
Proof.
  intros Hw Hdiv Hpm Hi. unfold cfg_value.
  assert (H256 : 2 ^ hid_width rcg <= 256).
  { change 256 with (2 ^ 8). apply Z.pow_le_mono_r; lia. }
  unfold CFG_SRC_DIV_SHIFT, CFG_SRC_SEL_SHIFT.
  rewrite Z.shiftl_0_r, (u32_small (f_pre_div f))
    by (change (2 ^ 32) with 4294967296; lia).
  rewrite (u32_small (Z.shiftl pm 8))
    by (rewrite Z.shiftl_mul_pow2 by lia;
        change (2 ^ 8) with 256; change (2 ^ 32) with 4294967296; lia).
  assert (Hbase :
    Z.testbit (Z.lor (f_pre_div f) (Z.shiftl pm 8)) i =
      if i <? hid_width rcg then Z.testbit (f_pre_div f) i
      else if (8 <=? i) && (i <? 11) then Z.testbit pm (i - 8) else false).
  { rewrite Z.lor_spec, Z.shiftl_spec by lia.
    destruct (Z.ltb_spec i (hid_width rcg)).
    - rewrite (Z.testbit_neg_r pm) by lia. apply orb_false_r.
    - rewrite (testbit_small (f_pre_div f) (hid_width rcg) i) by lia.
      cbn [orb].
      destruct (Z.leb_spec 8 i), (Z.ltb_spec i 11); cbn [andb];
        try reflexivity; try (apply Z.testbit_neg_r; lia).
      apply (testbit_small pm 3); [change (2 ^ 3) with 8|]; lia. }
  destruct (use_mnd rcg f).
  - rewrite Z.lor_spec, Hbase. unfold CFG_MODE_DUAL_EDGE, CFG_MODE_SHIFT.
    change (Z.shiftl 2 12) with (2 ^ 13).
    rewrite Z.pow2_bits_eqb by lia. rewrite (Z.eqb_sym 13 i).
    destruct (Z.eqb_spec i 13) as [->|Hne].
    + destruct (Z.ltb_spec 13 (hid_width rcg)); [lia|]. reflexivity.
    + rewrite orb_false_r, andb_false_l.
      by destruct (i <? hid_width rcg), ((8 <=? i) && (i <? 11)).
  - rewrite Hbase, andb_false_r. reflexivity.
Qed.

Lemma width_mask_small (a : abi) (width : Z) :
  0 <= width <= 8 -> width_mask a width = Some (Z.ones width).
Proof.
  intros Hw. destruct (width_mask a width) as [hm|] eqn:Hm.
  - f_equal. by eapply width_mask_ones.
  - unfold width_mask, BIT in Hm.
    destruct (Z.leb_spec 0 width); [|lia].
    destruct (Z.ltb_spec width (BITS_PER_LONG a)); [discriminate|].
    destruct a; simpl in *; lia.
Qed.

Section Fields.
Variables (rcg : clk_rcg2) (f : freq_tbl) (pm cfg0 : Z).
Hypothesis Hwidth : 0 <= hid_width rcg <= 8.
Hypothesis Hdiv : 0 <= f_pre_div f < 2 ^ hid_width rcg.
Hypothesis Hpm : 0 <= pm < 8.

Lemma cfg_testbit (i : Z) :
  0 <= i ->
  Z.testbit (written_cfg rcg f pm cfg0) i =
    if i <? hid_width rcg then Z.testbit (f_pre_div f) i
    else if (8 <=? i) && (i <? 11) then Z.testbit pm (i - 8)
    else if (12 <=? i) && (i <? 14) then (i =? 13) && use_mnd rcg f
    else Z.testbit cfg0 i.
Proof.
  intros Hi. unfold written_cfg.
  rewrite merged_testbit, cfg_mask_testbit, cfg_value_testbit by lia.
  destruct (i <? hid_width rcg); [reflexivity|].
  destruct ((8 <=? i) && (i <? 11)); [reflexivity|].
  destruct ((12 <=? i) && (i <? 14)); reflexivity.
Qed.

Lemma readback_hid_div :
  cfg_hid_div (Z.ones (hid_width rcg)) (written_cfg rcg f pm cfg0)
  = f_pre_div f.
Proof.
  unfold cfg_hid_div, CFG_SRC_DIV_SHIFT. rewrite Z.shiftr_0_r.
  apply Z.bits_inj'. intros i Hi.
  rewrite Z.land_spec, Z.testbit_ones_nonneg, cfg_testbit by lia.
  destruct (Z.ltb_spec i (hid_width rcg)).
  - apply andb_true_r.
  - rewrite andb_false_r. symmetry.
    apply (testbit_small _ (hid_width rcg)); lia.
Qed.

Lemma readback_src_sel : cfg_src_sel (written_cfg rcg f pm cfg0) = pm.
Proof.
  unfold cfg_src_sel, CFG_SRC_SEL_SHIFT.
  apply Z.bits_inj'. intros j Hj.
  rewrite Z.shiftr_spec, Z.land_spec, sel_mask_testbit, cfg_testbit by lia.
  destruct (Z.ltb_spec (j + 8) (hid_width rcg)); [lia|].
  destruct (Z.leb_spec 8 (j + 8)); [|lia]. cbn [andb].
  destruct (Z.ltb_spec (j + 8) 11).
  - replace (j + 8 - 8) with j by lia. apply andb_true_r.
  - rewrite andb_false_r. symmetry.
    apply (testbit_small pm 3); [change (2 ^ 3) with 8|]; lia.
Qed.

Lemma readback_mode :
  cfg_mode (written_cfg rcg f pm cfg0) = if use_mnd rcg f then 2 else 0.
Proof.
  unfold cfg_mode, CFG_MODE_SHIFT.
  apply Z.bits_inj'. intros j Hj.
  rewrite Z.shiftr_spec, Z.land_spec, mode_mask_testbit, cfg_testbit by lia.
  destruct (Z.ltb_spec (j + 12) (hid_width rcg)); [lia|].
  destruct (Z.leb_spec 8 (j + 12)); [|lia].
  destruct (Z.ltb_spec (j + 12) 11); [lia|]. cbn [andb].
  destruct (Z.leb_spec 12 (j + 12)); [|lia]. cbn [andb].
  destruct (Z.ltb_spec (j + 12) 14).
  - rewrite andb_true_r.
    assert (Hj01 : j = 0 \/ j = 1) by lia.
    destruct Hj01 as [-> | ->]; by destruct (use_mnd rcg f).
  - rewrite andb_false_r. symmetry.
    apply (testbit_small _ 2); [|lia].
    destruct (use_mnd rcg f); change (2 ^ 2) with 4; lia.
Qed.

End Fields.

(** Unconditionally, a read-modify-write leaves the bits outside its mask
    as they were. *)
Lemma merged_outside (orig mask val i : Z) :
  0 <= i -> Z.testbit mask i = false ->
  Z.testbit (merged orig mask val) i = Z.testbit orig i.
Proof. intros Hi Hm. by rewrite merged_testbit, Hm. Qed.

(** A completed config stage had a defined divider mask and a parent map
    entry for the row. *)
Lemma set_rate_cfg_defined {H : Type} `{!Regmap H} (a : abi)
    (rcg : clk_rcg2) (f : freq_tbl) (w : world H) (r : Z) (w' : world H) :
  set_rate_cfg a rcg f w = Done r w' ->
  exists hid_mask pm,
    width_mask a (hid_width rcg) = Some hid_mask /\
    parent_map rcg !! Z.to_nat (f_src f) = Some pm.
Proof.
  intros Hrun. unfold set_rate_cfg in Hrun.
  apply bind_done in Hrun as (hid_mask & w0 & Hd & Hrun).
  apply defined_done in Hd as [Hmask ->].
  apply bind_done in Hrun as (pm & w0 & Hd & _).
  apply defined_done in Hd as [Hpm _].
  by exists hid_mask, pm.
Qed.

(** C6, as the code has it.  After a run of [__clk_rcg2_set_rate] that
    returns 0, a successful read of the config register yields the
    register's content.  For every matched row, every bit of that content
    outside the mask of the write (the divider bits [BIT(hid_width) - 1],
    the select bits and the mode bits) is as it was before the run.  When
    moreover the row's divider fits the divider field, the field is at most
    eight bits wide and the select code of the row's parent fits its three
    bits, the divider field of the content is the row's [pre_div], its
    select field is [parent_map[src]], and its mode field is 2 (dual edge)
    when the row is fractional and 0 otherwise. *)
Theorem set_rate_config_readback (a : abi) (rcg : clk_rcg2) (rate : Z)
    (w w' : world sim) (i : nat) (f : freq_tbl) :
  find_freq (rcg_freq_tbl rcg) rate = Some (i, f) ->
  @__clk_rcg2_set_rate sim (regmap_of rcg) a rcg rate w = Done 0 w' ->
  (forall w'' v,
      @regmap_read sim (regmap_of rcg) (reg_of rcg CFG_REG) w'
        = Done (0, v) w'' ->
      v = sim_reg (hw w') (reg_of rcg CFG_REG)) /\
  (exists hid_mask,
      width_mask a (hid_width rcg) = Some hid_mask /\
      forall k,
        0 <= k ->
        Z.testbit (cfg_mask hid_mask) k = false ->
        Z.testbit (sim_reg (hw w') (reg_of rcg CFG_REG)) k =
          Z.testbit (sim_reg (hw w) (reg_of rcg CFG_REG)) k) /\
  (forall pm,
      parent_map rcg !! Z.to_nat (f_src f) = Some pm ->
      0 <= hid_width rcg <= 8 ->
      0 <= f_pre_div f < 2 ^ hid_width rcg ->
      0 <= pm < 8 ->
      cfg_hid_div (Z.ones (hid_width rcg))
        (sim_reg (hw w') (reg_of rcg CFG_REG)) = f_pre_div f /\
      cfg_src_sel (sim_reg (hw w') (reg_of rcg CFG_REG)) = pm /\
      cfg_mode (sim_reg (hw w') (reg_of rcg CFG_REG))
        = (if use_mnd rcg f then 2 else 0)).
Proof.
  intros Hfind Hrun.
  destruct (set_rate_reaches_cfg a rcg rate w w' i f Hfind Hrun)
    as (w1 & Hcfg & Hsame).
  destruct (set_rate_cfg_defined a rcg f w1 0 w' Hcfg)
    as (hid_mask & pm0 & Hmask & Hpm0).
  pose proof (set_rate_cfg_writes a rcg f w1 w' hid_mask pm0 Hmask Hpm0 Hcfg)
    as Hnew.
  rewrite Hsame in Hnew.
  split.
  { intros w'' v Hread. unfold regmap_read in Hread.
    cbn [hw_read regmap_of sim_regmap] in Hread.
    destruct (sim_read_spec (reg_of rcg CMD_REG) (hw w') (reg_of rcg CFG_REG))
      as (s' & ret & v' & Hrd & _ & Hval).
    rewrite Hrd in Hread. inversion Hread; subst.
    apply Hval; [reflexivity|apply cfg_is_not_cmd]. }
  split.
  { exists hid_mask. split; [exact Hmask|].
    intros k Hk Hout. rewrite Hnew. by apply merged_outside. }
  intros pm Hpm Hwidth Hdiv Hsel.
  assert (pm0 = pm) by congruence. subst pm0.
  assert (hid_mask = Z.ones (hid_width rcg))
    by (by eapply width_mask_ones). subst hid_mask.
  rewrite Hnew.
  split; [by apply readback_hid_div|].
  split; [by apply readback_src_sel|by apply readback_mode].
Qed.

Lemma set_rate_config_readback_witness :
  exists w',
    @__clk_rcg2_set_rate sim (regmap_of demo_rcg) ILP32 demo_rcg 50000000
      (quiet 0) = Done 0 w' /\
    cfg_hid_div (Z.ones 5) (sim_reg (hw w') (reg_of demo_rcg CFG_REG)) = 23 /\
    cfg_src_sel (sim_reg (hw w') (reg_of demo_rcg CFG_REG)) = 1.
Proof.
  eexists. split; [vm_compute; reflexivity|].
  match goal with
  | |- cfg_hid_div _ (sim_reg (hw ?w') _) = _ /\ _ =>
      destruct (set_rate_config_readback ILP32 demo_rcg 50000000 (quiet 0) w'
                  2%nat
                  {| f_freq := 50000000; f_src := 1; f_pre_div := 23;
                     f_m := 0; f_n := 0 |})
        as (_ & _ & Hfields)
  end.
  - reflexivity.
  - vm_compute. reflexivity.
  - destruct (Hfields 1) as (Hdiv & Hsel & _).
    + reflexivity.
    + simpl; lia.
    + simpl; lia.
    + lia.
    + split; [exact Hdiv|exact Hsel].
Defined.

(** C6 as stated fails for a row whose divider does not fit the divider
    field: the run succeeds, and the divider field reads back 0, not 32. *)
Lemma set_rate_divider_cut :
  exists (w' : world sim) (f : freq_tbl),
    find_freq (rcg_freq_tbl wide_div_rcg) 100000000 = Some (0%nat, f) /\
    @__clk_rcg2_set_rate sim (regmap_of wide_div_rcg) ILP32 wide_div_rcg
      100000000 (quiet 0) = Done 0 w' /\
    cfg_hid_div (Z.ones (hid_width wide_div_rcg))
      (sim_reg (hw w') (reg_of wide_div_rcg CFG_REG)) = 0 /\
    f_pre_div f = 32 /\
    cfg_hid_div (Z.ones (hid_width wide_div_rcg))
      (sim_reg (hw w') (reg_of wide_div_rcg CFG_REG)) <> f_pre_div f.
Proof.
  eexists _, _. split; [reflexivity|].
  split; [vm_compute; reflexivity|].
  split; [reflexivity|]. split; [reflexivity|].
  vm_compute. discriminate.
Qed.

(** ** Rate negotiation *)






(** * Further properties of the driver *)

(** ** What runs log *)

Lemma logs_weaken {H A : Type} (c : M H A) (P Q : A -> list event -> Prop) :
  logs c P -> (forall r evs, P r evs -> Q r evs) -> logs c Q.
Proof.
  intros Hc HPQ w r w' Hrun. destruct (Hc w r w' Hrun) as (evs & Htr & HP).
  exists evs. auto.
Qed.

Lemma logs_ret {H A : Type} (x : A) (P : A -> list event -> Prop) :
  P x [] -> logs (mret (M := M H) x) P.
Proof.
  intros HP w r w' Hrun. apply ret_done in Hrun as [<- ->].
  exists []. split; [by rewrite app_nil_r|exact HP].
Qed.

Lemma logs_defined {H A : Type} (o : option A)
    (P : A -> list event -> Prop) :
  (forall x, o = Some x -> P x []) -> logs (defined (H := H) o) P.
Proof.
  intros HP w r w' Hrun. apply defined_done in Hrun as [Ho ->].
  exists []. split; [by rewrite app_nil_r|auto].
Qed.

Lemma logs_bind {H A B : Type} (c : M H A) (k : A -> M H B)
    (P : A -> list event -> Prop) (Q : A -> B -> list event -> Prop)
    (R : B -> list event -> Prop) :
  logs c P ->
  (forall x, logs (k x) (Q x)) ->
  (forall x evs1 r evs2, P x evs1 -> Q x r evs2 -> R r (evs1 ++ evs2)) ->
  logs (c ≫= k) R.
Proof.
  intros Hc Hk HR w r w' Hrun.
  apply bind_done in Hrun as (x & w1 & Hcw & Hkw).
  destruct (Hc _ _ _ Hcw) as (evs1 & Htr1 & HP).
  destruct (Hk x _ _ _ Hkw) as (evs2 & Htr2 & HQ).
  exists (evs1 ++ evs2). split; [|eauto].
  by rewrite Htr2, Htr1, app_assoc.
Qed.

Lemma logs_log {H : Type} (e : event) :
  logs (log (H := H) e) (fun _ evs => evs = [e]).
Proof.
  intros w r w' Hrun. inversion Hrun; subst. by exists [e].
Qed.

Lemma logs_read {H : Type} `{!Regmap H} (reg : Z) :
  logs (regmap_read reg) (fun x evs => evs = [EvRead reg x.1 x.2]).
Proof.
  intros w r w' Hrun. unfold regmap_read in Hrun.
  destruct (hw_read (hw w) reg) as [h [ret val]].
  inversion Hrun; subst. by eexists.
Qed.

Lemma logs_update {H : Type} `{!Regmap H} (reg mask val : Z) :
  logs (regmap_update_bits reg mask val)
       (fun ret evs => evs = [EvUpdate reg mask val ret]).
Proof.
  intros w r w' Hrun. unfold regmap_update_bits in Hrun.
  destruct (hw_update_bits (hw w) reg mask val) as [h ret].
  inversion Hrun; subst. by eexists.
Qed.

(** ** Nothing happens after a failed access *)

Lemma fail_stop_nil (ret : Z) : fail_stop ret [].
Proof. intros pre e post Heq. by destruct pre. Qed.

Lemma fail_stop_last (e : event) : fail_stop (status e) [e].
Proof.
  intros pre e' post Heq Hf. destruct pre as [|? [|? ?]]; [|discriminate..].
  inversion Heq; subst. auto.
Qed.

Lemma fail_stop_cons (ret : Z) (e : event) (evs : list event) :
  failed e = false -> fail_stop ret evs -> fail_stop ret (e :: evs).
Proof.
  intros He Hevs pre e' post Heq Hf. destruct pre as [|e0 pre].
  - inversion Heq; subst. congruence.
  - inversion Heq; subst. eauto.
Qed.

Lemma fail_stop_clean (ret : Z) (evs : list event) :
  (forall e, e ∈ evs -> failed e = false) -> fail_stop ret evs.
Proof.
  intros Hclean pre e post -> Hf.
  rewrite Hclean in Hf; [discriminate|].
  apply elem_of_app. right. left.
Qed.

Lemma fail_stop_success (evs : list event) :
  fail_stop 0 evs -> forall e, e ∈ evs -> failed e = false.
Proof.
  intros Hfs e Hin. apply list_elem_of_split in Hin as (pre & post & ->).
  destruct (failed e) eqn:Hf; [|reflexivity].
  destruct (Hfs pre e post eq_refl Hf) as [_ Hst].
  destruct e; simpl in *; try discriminate;
    by rewrite <- Hst in Hf.
Qed.

(** One guarded update, the pattern of the whole driver:
    [ret = regmap_update_bits(...); if (ret) return ret;] and then [k]. *)
Lemma fail_stop_update_step {H : Type} `{!Regmap H} (reg mask val : Z)
    (k : M H Z) :
  logs k fail_stop ->
  logs (ret ← regmap_update_bits reg mask val;
        if negb (ret =? 0) then mret ret else k) fail_stop.
Proof.
  intros Hk.
  eapply (logs_bind _ _ _
            (fun ret r evs => if negb (ret =? 0) then r = ret /\ evs = []
                              else fail_stop r evs)).
  - apply logs_update.
  - intros ret. destruct (negb (ret =? 0)); [by apply logs_ret|exact Hk].
  - intros ret evs1 r evs2 -> HQ. cbn [app].
    destruct (negb (ret =? 0)) eqn:Hret.
    + destruct HQ as [-> ->].
      apply (fail_stop_last (EvUpdate reg mask val ret)).
    + apply fail_stop_cons; [exact Hret|exact HQ].
Qed.

Lemma wait_trace_fail_stop (reg : Z) (name : string) n ret evs :
  wait_trace reg name n ret evs -> fail_stop ret evs.
Proof.
  induction 1.
  - apply fail_stop_clean. intros e He.
    apply list_elem_of_singleton in He. by subst.
  - apply (fail_stop_last (EvRead reg ret val)).
  - apply fail_stop_clean. intros e He.
    apply list_elem_of_singleton in He. by subst.
  - apply fail_stop_cons; [reflexivity|].
    apply fail_stop_cons; [reflexivity|assumption].
Qed.

Lemma update_config_wait_logs {H : Type} `{!Regmap H}
    (rcg : clk_rcg2) (count : nat) :
  logs (update_config_wait rcg count)
       (fun ret evs =>
          wait_trace (reg_of rcg CMD_REG) (clk_name rcg) count ret evs).
Proof.
  intros w r w' Hrun.
  destruct (update_config_wait_trace rcg count w)
    as (ret & w1 & evs & Hrun' & Htr & Hwt).
  rewrite Hrun in Hrun'. inversion Hrun'; subst. eauto.
Qed.

Lemma update_config_fail_stop {H : Type} `{!Regmap H} (rcg : clk_rcg2) :
  logs (update_config rcg) fail_stop.
Proof.
  unfold update_config. apply fail_stop_update_step.
  eapply logs_weaken; [apply update_config_wait_logs|].
  intros r evs. apply wait_trace_fail_stop.
Qed.

Lemma set_rate_cfg_fail_stop {H : Type} `{!Regmap H} (a : abi)
    (rcg : clk_rcg2) (f : freq_tbl) :
  logs (set_rate_cfg a rcg f) fail_stop.
Proof.
  unfold set_rate_cfg.
  eapply (logs_bind _ _ (fun _ evs => evs = []) (fun _ => fail_stop)).
  - apply logs_defined. auto.
  - intros mask.
    eapply (logs_bind _ _ (fun _ evs => evs = []) (fun _ => fail_stop)).
    + apply logs_defined. auto.
    + intros pm. apply fail_stop_update_step, update_config_fail_stop.
    + by intros x evs1 r evs2 ->.
  - by intros x evs1 r evs2 ->.
Qed.

Lemma set_rate_fail_stop {H : Type} `{!Regmap H} (a : abi)
    (rcg : clk_rcg2) (rate : Z) :
  logs (__clk_rcg2_set_rate a rcg rate) fail_stop.
Proof.
  unfold __clk_rcg2_set_rate.
  destruct (find_freq (rcg_freq_tbl rcg) rate) as [[i f]|];
    [|apply logs_ret, fail_stop_nil].
  destruct (use_mnd rcg f); [|apply set_rate_cfg_fail_stop].
  eapply (logs_bind _ _ (fun _ evs => evs = []) (fun _ => fail_stop)).
  - apply logs_defined. auto.
  - intros mask. do 3 apply fail_stop_update_step.
    apply set_rate_cfg_fail_stop.
  - by intros x evs1 r evs2 ->.
Qed.

Lemma set_parent_fail_stop {H : Type} `{!Regmap H}
    (rcg : clk_rcg2) (index : Z) :
  logs (clk_rcg2_set_parent rcg index) fail_stop.
Proof.
  unfold clk_rcg2_set_parent.
  eapply (logs_bind _ _ (fun _ evs => evs = []) (fun _ => fail_stop)).
  - apply logs_defined. auto.
  - intros pm. apply fail_stop_update_step, update_config_fail_stop.
  - by intros x evs1 r evs2 ->.
Qed.

(** X1.  Whatever the hardware does, a run of [__clk_rcg2_set_rate],
    [clk_rcg2_set_parent] or [update_config] stops at the first register
    access that fails: that access is the last event logged and its status
    is the result.  So a result of 0 means that no access failed. *)
Theorem rcg2_stops_at_first_failure {H : Type} `{!Regmap H} (a : abi)
    (rcg : clk_rcg2) (rate index : Z) (c : M H Z)
    (w : world H) (r : Z) (w' : world H) :
  c = __clk_rcg2_set_rate a rcg rate \/
  c = clk_rcg2_set_parent rcg index \/
  c = update_config rcg ->
  c w = Done r w' ->
  exists evs,
    trace w' = trace w ++ evs /\
    (forall pre e post,
        evs = pre ++ e :: post -> failed e = true ->
        post = [] /\ r = status e) /\
    (r = 0 -> forall e, e ∈ evs -> failed e = false).
Proof.
  intros Hc Hrun.
  assert (Hlogs : logs c fail_stop).
  { destruct Hc as [-> | [-> | ->]];
      [apply set_rate_fail_stop|apply set_parent_fail_stop
      |apply update_config_fail_stop]. }
  destruct (Hlogs w r w' Hrun) as (evs & Htr & Hfs).
  exists evs. split; [exact Htr|]. split; [exact Hfs|].
  intros ->. by apply fail_stop_success.
Qed.

(** The N write of the fractional row fails with status 5: the log ends
    there and 5 is the result. *)
Lemma rcg2_stops_at_first_failure_witness :
  exists evs,
    [ EvUpdate 0x0668 255 24 0;
      EvUpdate 0x066c 255 (u32 (Z.lnot (125 - 24))) 5 ] = [] ++ evs /\
    (forall pre e post,
        evs = pre ++ e :: post -> failed e = true ->
        post = [] /\ 5 = status e).
Proof.
  destruct (@rcg2_stops_at_first_failure sim (regmap_of demo_rcg) ILP32
              demo_rcg 3686400 0
              (@__clk_rcg2_set_rate sim (regmap_of demo_rcg) ILP32 demo_rcg
                 3686400)
              (World (Sim ∅ [0; 5] 0) []) 5
              (World (Sim {[ 0x0668 := 24 ]} [] 0)
                 [ EvUpdate 0x0668 255 24 0;
                   EvUpdate 0x066c 255 (u32 (Z.lnot (125 - 24))) 5 ]))
    as (evs & Htr & Hfs & _).
  - left. reflexivity.
  - vm_compute. reflexivity.
  - exists evs. split; [exact Htr|exact Hfs].
Defined.

(** ** Which registers a run may update *)

Lemma updates_within_nil (allowed : list Z) : updates_within allowed [].
Proof. intros reg mask val ret Hin. by apply elem_of_nil in Hin. Qed.

Lemma updates_within_app (allowed : list Z) (evs1 evs2 : list event) :
  updates_within allowed evs1 -> updates_within allowed evs2 ->
  updates_within allowed (evs1 ++ evs2).
Proof.
  intros H1 H2 reg mask val ret Hin.
  apply elem_of_app in Hin as [Hin|Hin]; eauto.
Qed.

Lemma updates_within_one (allowed : list Z) (reg mask val ret : Z) :
  reg ∈ allowed -> updates_within allowed [EvUpdate reg mask val ret].
Proof.
  intros Hreg reg' mask' val' ret' Hin.
  apply list_elem_of_singleton in Hin. by inversion Hin; subst.
Qed.

Lemma updates_within_mono (small large : list Z) (evs : list event) :
  small ⊆ large -> updates_within small evs -> updates_within large evs.
Proof. intros Hsub Hevs reg mask val ret Hin. eauto. Qed.

Lemma wait_trace_no_update (reg : Z) (name : string) n ret evs :
  wait_trace reg name n ret evs -> updates_within [] evs.
Proof.
  induction 1; intros r m v s Hin.
  - apply list_elem_of_singleton in Hin. discriminate.
  - apply list_elem_of_singleton in Hin. discriminate.
  - apply list_elem_of_singleton in Hin. discriminate.
  - apply elem_of_cons in Hin as [Hin|Hin]; [discriminate|].
    apply elem_of_cons in Hin as [Hin|Hin]; [discriminate|].
    eauto.
Qed.

(** A guarded update followed by [k], for the registers updated. *)
Lemma updates_within_step {H : Type} `{!Regmap H} (allowed : list Z)
    (reg mask val : Z) (k : M H Z) :
  reg ∈ allowed ->
  logs k (fun _ => updates_within allowed) ->
  logs (ret ← regmap_update_bits reg mask val;
        if negb (ret =? 0) then mret ret else k)
       (fun _ => updates_within allowed).
Proof.
  intros Hreg Hk.
  eapply (logs_bind _ _ _ (fun _ _ => updates_within allowed)).
  - apply logs_update.
  - intros ret. destruct (negb (ret =? 0)); [|exact Hk].
    apply logs_ret, updates_within_nil.
  - intros ret evs1 r evs2 -> HQ.
    apply updates_within_app; [by apply updates_within_one|exact HQ].
Qed.

Lemma update_config_updates {H : Type} `{!Regmap H} (rcg : clk_rcg2)
    (allowed : list Z) :
  reg_of rcg CMD_REG ∈ allowed ->
  logs (update_config rcg) (fun _ => updates_within allowed).
Proof.
  intros Hcmd. unfold update_config. apply updates_within_step; [exact Hcmd|].
  eapply logs_weaken; [apply update_config_wait_logs|].
  intros r evs Hwt reg mask val ret Hin.
  pose proof (wait_trace_no_update _ _ _ _ _ Hwt reg mask val ret Hin) as Hno.
  by apply elem_of_nil in Hno.
Qed.

Lemma set_rate_cfg_updates {H : Type} `{!Regmap H} (a : abi)
    (rcg : clk_rcg2) (f : freq_tbl) (allowed : list Z) :
  reg_of rcg CFG_REG ∈ allowed -> reg_of rcg CMD_REG ∈ allowed ->
  logs (set_rate_cfg a rcg f) (fun _ => updates_within allowed).
Proof.
  intros Hcfg Hcmd. unfold set_rate_cfg.
  eapply (logs_bind _ _ (fun _ evs => evs = [])
            (fun _ _ => updates_within allowed)).
  - apply logs_defined. auto.
  - intros mask.
    eapply (logs_bind _ _ (fun _ evs => evs = [])
              (fun _ _ => updates_within allowed)).
    + apply logs_defined. auto.
    + intros pm. apply updates_within_step; [exact Hcfg|].
      by apply update_config_updates.
    + by intros x evs1 r evs2 ->.
  - by intros x evs1 r evs2 ->.
Qed.

(** X2.  A run of [__clk_rcg2_set_rate] only ever updates the five
    registers of its own generator: M, N, D, config and command.  For a
    matched row that is not fractional it updates the config and command
    registers only, so the M, N and D counters keep whatever an earlier
    fractional row left in them. *)
Theorem set_rate_updates_own_registers {H : Type} `{!Regmap H} (a : abi)
    (rcg : clk_rcg2) (rate : Z) (w : world H) (r : Z) (w' : world H) :
  __clk_rcg2_set_rate a rcg rate w = Done r w' ->
  exists evs,
    trace w' = trace w ++ evs /\
    updates_within
      [reg_of rcg M_REG; reg_of rcg N_REG; reg_of rcg D_REG;
       reg_of rcg CFG_REG; reg_of rcg CMD_REG] evs /\
    (forall i f,
        find_freq (rcg_freq_tbl rcg) rate = Some (i, f) ->
        use_mnd rcg f = false ->
        updates_within [reg_of rcg CFG_REG; reg_of rcg CMD_REG] evs).
Proof.
  intros Hrun.
  assert (Hlogs : logs (__clk_rcg2_set_rate a rcg rate)
            (fun _ evs =>
               updates_within
                 [reg_of rcg M_REG; reg_of rcg N_REG; reg_of rcg D_REG;
                  reg_of rcg CFG_REG; reg_of rcg CMD_REG] evs /\
               (forall i f,
                   find_freq (rcg_freq_tbl rcg) rate = Some (i, f) ->
                   use_mnd rcg f = false ->
                   updates_within [reg_of rcg CFG_REG; reg_of rcg CMD_REG]
                     evs))).
  { unfold __clk_rcg2_set_rate.
    destruct (find_freq (rcg_freq_tbl rcg) rate) as [[i f]|].
    2:{ apply logs_ret. split; [apply updates_within_nil|].
        intros; apply updates_within_nil. }
    destruct (use_mnd rcg f) eqn:Huse.
    - apply (logs_weaken _
               (fun _ =>
                  updates_within
                    [reg_of rcg M_REG; reg_of rcg N_REG; reg_of rcg D_REG;
                     reg_of rcg CFG_REG; reg_of rcg CMD_REG])).
      + eapply (logs_bind _ _ (fun _ evs => evs = [])
                  (fun _ _ =>
                     updates_within
                       [reg_of rcg M_REG; reg_of rcg N_REG; reg_of rcg D_REG;
                        reg_of rcg CFG_REG; reg_of rcg CMD_REG])).
        * apply logs_defined. auto.
        * intros mask.
          apply updates_within_step; [set_solver|].
          apply updates_within_step; [set_solver|].
          apply updates_within_step; [set_solver|].
          apply set_rate_cfg_updates; set_solver.
        * by intros x evs1 r0 evs2 ->.
      + intros r0 evs Hevs. split; [exact Hevs|].
        intros i' f' Hfind Huse'. injection Hfind as <- <-. congruence.
    - eapply logs_weaken.
      + apply (set_rate_cfg_updates a rcg f
                 [reg_of rcg CFG_REG; reg_of rcg CMD_REG]); set_solver.
      + intros r0 evs Hevs. split; [|auto].
        eapply updates_within_mono; [|exact Hevs].
        intros x. rewrite !elem_of_cons. tauto. }
  destruct (Hlogs w r w' Hrun) as (evs & Htr & Hall & Hint).
  exists evs. auto.
Qed.

(** Programming the 19.2 MHz row of the test bench, which is not
    fractional. *)
Lemma set_rate_updates_own_registers_witness :
  exists r w' evs,
    @__clk_rcg2_set_rate sim (regmap_of demo_rcg) ILP32 demo_rcg 19200000
      (quiet 0) = Done r w' /\
    trace w' = trace (quiet 0) ++ evs /\
    updates_within [reg_of demo_rcg CFG_REG; reg_of demo_rcg CMD_REG] evs.
Proof.
  destruct (@__clk_rcg2_set_rate sim (regmap_of demo_rcg) ILP32 demo_rcg
              19200000 (quiet 0)) as [r w'|] eqn:Hrun;
    [|vm_compute in Hrun; discriminate].
  destruct (@set_rate_updates_own_registers sim (regmap_of demo_rcg) ILP32
              demo_rcg 19200000 (quiet 0) r w' Hrun)
    as (evs & Htr & _ & Hint).
  exists r, w', evs. split; [reflexivity|]. split; [exact Htr|].
  apply (Hint 1%nat
           {| f_freq := 19200000; f_src := 0; f_pre_div := 1;
              f_m := 0; f_n := 0 |}); reflexivity.
Defined.

(** ** The two entry points *)

(** The select field of a read-modify-write whose mask covers the select
    bits is the select field of the value written. *)
Lemma src_sel_merged (orig hid_mask val : Z) :
  cfg_src_sel (merged orig (cfg_mask hid_mask) val) = cfg_src_sel val.
Proof.
  unfold cfg_src_sel, CFG_SRC_SEL_SHIFT.
  apply Z.bits_inj'. intros j Hj.
  rewrite !Z.shiftr_spec, !Z.land_spec, sel_mask_testbit by lia.
  rewrite merged_testbit by lia. unfold cfg_mask.
  rewrite !Z.lor_spec, sel_mask_testbit by lia.
  destruct ((8 <=? j + 8) && (j + 8 <? 11)).
  - by rewrite orb_true_l, orb_true_r.
  - by rewrite !andb_false_r.
Qed.

(** The select field of the value the driver composes, for a divider of at
    most eight bits: the three low bits of the select code. *)
Lemma cfg_value_src_sel (rcg : clk_rcg2) (f : freq_tbl) (pm : Z) :
  0 <= f_pre_div f < 2 ^ 8 -> 0 <= pm ->
  cfg_src_sel (cfg_value rcg f pm) = pm mod 8.
Proof.
  intros Hdiv Hpm. change (pm mod 8) with (pm mod 2 ^ 3).
  assert (Hbase : forall j, 0 <= j < 3 ->
    Z.testbit (Z.lor (u32 (Z.shiftl (f_pre_div f) CFG_SRC_DIV_SHIFT))
                 (u32 (Z.shiftl pm CFG_SRC_SEL_SHIFT))) (j + 8)
    = Z.testbit pm j).
  { intros j Hj. unfold CFG_SRC_DIV_SHIFT, CFG_SRC_SEL_SHIFT, u32.
    rewrite Z.lor_spec, !Z.mod_pow2_bits_low by lia.
    rewrite Z.shiftl_0_r, Z.shiftl_spec by lia.
    rewrite (testbit_small (f_pre_div f) 8 (j + 8)) by lia.
    cbn [orb]. f_equal. lia. }
  unfold cfg_src_sel, CFG_SRC_SEL_SHIFT.
  apply Z.bits_inj'. intros j Hj.
  rewrite Z.shiftr_spec, Z.land_spec, sel_mask_testbit by lia.
  destruct (Z.leb_spec 8 (j + 8)); [|lia]. cbn [andb].
  destruct (Z.ltb_spec (j + 8) 11).
  - rewrite andb_true_r, Z.mod_pow2_bits_low by lia.
    unfold cfg_value. cbv zeta.
    destruct (use_mnd rcg f); [|apply Hbase; lia].
    rewrite Z.lor_spec, Hbase by lia.
    unfold CFG_MODE_DUAL_EDGE, CFG_MODE_SHIFT.
    change (Z.shiftl 2 12) with (2 ^ 13).
    rewrite Z.pow2_bits_eqb by lia.
    destruct (Z.eqb_spec 13 (j + 8)); [lia|]. apply orb_false_r.
  - rewrite andb_false_r, Z.mod_pow2_bits_high by lia. reflexivity.
Qed.

(** The config stage updates the config register once, with the mask and
    the value composed from the row. *)
Lemma set_rate_cfg_selects {H : Type} `{!Regmap H} (a : abi)
    (rcg : clk_rcg2) (f : freq_tbl) :
  logs (set_rate_cfg a rcg f) (cfg_write_of_row a rcg f).
Proof.
  intros w r w' Hrun. unfold set_rate_cfg in Hrun.
  apply bind_done in Hrun as (hid_mask & w0 & Hd & Hrun).
  apply defined_done in Hd as [Hmask ->].
  apply bind_done in Hrun as (pm & w0 & Hd & Hrun).
  apply defined_done in Hd as [Hpm ->].
  apply bind_done in Hrun as (ret & w1 & Hupd & Hrun).
  destruct (logs_update _ _ _ _ _ _ Hupd) as (evs1 & Htr1 & ->).
  destruct (Z.eqb_spec ret 0) as [->|Hret]; cbn [negb] in Hrun.
  - assert (Hcmd : reg_of rcg CMD_REG ∈ [reg_of rcg CMD_REG])
      by (apply list_elem_of_singleton; reflexivity).
    destruct (update_config_updates rcg _ Hcmd _ _ _ Hrun)
      as (evs2 & Htr2 & Hin2).
    eexists (_ ++ evs2). split; [by rewrite Htr2, Htr1, app_assoc|].
    split.
    + intros mask val ret Hin. apply elem_of_app in Hin as [Hin|Hin].
      * apply list_elem_of_singleton in Hin. inversion Hin; subst.
        by exists hid_mask, pm.
      * apply Hin2, list_elem_of_singleton in Hin.
        destruct (cfg_is_not_cmd rcg Hin).
    + intros _. exists hid_mask, pm. split; [exact Hmask|].
      split; [exact Hpm|].
      apply elem_of_app. left. by apply list_elem_of_singleton.
  - apply ret_done in Hrun as [<- ->].
    eexists. split; [exact Htr1|]. split; [|done].
    intros mask val ret' Hin.
    apply list_elem_of_singleton in Hin. inversion Hin; subst.
    by exists hid_mask, pm.
Qed.

(** A guarded update of another register before [k] changes nothing to
    that. *)
Lemma cfg_write_step {H : Type} `{!Regmap H} (a : abi) (rcg : clk_rcg2)
    (f : freq_tbl) (reg mask val : Z) (k : M H Z) :
  reg <> reg_of rcg CFG_REG ->
  logs k (cfg_write_of_row a rcg f) ->
  logs (ret ← regmap_update_bits reg mask val;
        if negb (ret =? 0) then mret ret else k)
       (cfg_write_of_row a rcg f).
Proof.
  intros Hne Hk w r w' Hrun.
  apply bind_done in Hrun as (ret & w1 & Hupd & Hrun).
  destruct (logs_update _ _ _ _ _ _ Hupd) as (evs1 & Htr1 & ->).
  destruct (Z.eqb_spec ret 0) as [->|Hret]; cbn [negb] in Hrun.
  - destruct (Hk _ _ _ Hrun) as (evs2 & Htr2 & Hall & Hok).
    eexists (_ ++ evs2). split; [by rewrite Htr2, Htr1, app_assoc|].
    split.
    + intros mask' val' ret Hin. apply elem_of_app in Hin as [Hin|Hin].
      * apply list_elem_of_singleton in Hin. inversion Hin; subst.
        by destruct Hne.
      * by apply (Hall mask' val' ret).
    + intros Hr. destruct (Hok Hr) as (hid_mask & pm & Hmask & Hpm & Hin).
      exists hid_mask, pm. split; [exact Hmask|]. split; [exact Hpm|].
      apply elem_of_app. by right.
  - apply ret_done in Hrun as [<- ->].
    eexists. split; [exact Htr1|]. split; [|done].
    intros mask' val' ret' Hin.
    apply list_elem_of_singleton in Hin. inversion Hin; subst.
    by destruct Hne.
Qed.

Lemma set_rate_selects {H : Type} `{!Regmap H} (a : abi) (rcg : clk_rcg2)
    (rate : Z) (i : nat) (f : freq_tbl) :
  find_freq (rcg_freq_tbl rcg) rate = Some (i, f) ->
  logs (__clk_rcg2_set_rate a rcg rate) (cfg_write_of_row a rcg f).
Proof.
  intros Hfind. unfold __clk_rcg2_set_rate. rewrite Hfind.
  destruct (use_mnd rcg f); [|apply set_rate_cfg_selects].
  assert (Hne : forall off, 0 <= off < 2 ^ 32 -> off <> CFG_REG ->
                            reg_of rcg off <> reg_of rcg CFG_REG).
  { intros off Hoff Hd Heq. apply reg_of_inj in Heq; [congruence|exact Hoff|].
    unfold CFG_REG; lia. }
  intros w r w' Hrun.
  apply bind_done in Hrun as (mask & w0 & Hd & Hrun).
  apply defined_done in Hd as [_ ->].
  revert w r w' Hrun.
  apply cfg_write_step; [apply Hne; unfold M_REG, CFG_REG; lia|].
  apply cfg_write_step; [apply Hne; unfold N_REG, CFG_REG; lia|].
  apply cfg_write_step; [apply Hne; unfold D_REG, CFG_REG; lia|].
  apply set_rate_cfg_selects.
Qed.

(** C10.  [clk_rcg2_set_rate] and [clk_rcg2_set_rate_and_parent] are the
    shared function [__clk_rcg2_set_rate] applied to the rate alone: for
    every parent rate and every parent index, from every state and over
    every register-access implementation, they give the same result, the
    same final state and the same log of register operations.  The parent
    selected comes from the matched row, whatever index was supplied and
    whether or not the row is fractional: in any completed run of
    [clk_rcg2_set_rate_and_parent], every update of the config register
    carries the value composed from the row and [parent_map[f->src]], under
    the mask of the divider, select and mode bits, and a run that returns 0
    has made that update.  On the register file, after a run that returns 0
    the select field of the config register is the select field of that
    value, which for a divider of at most eight bits is [parent_map[f->src]]
    cut to the three bits of the field. *)
Theorem set_rate_entry_points_agree {H : Type} `{!Regmap H} (a : abi)
    (rcg : clk_rcg2) (rate : Z) (w : world H) :
  (forall parent_rate,
      clk_rcg2_set_rate a rcg rate parent_rate w
        = __clk_rcg2_set_rate a rcg rate w) /\
  (forall parent_rate index,
      clk_rcg2_set_rate_and_parent a rcg rate parent_rate index w
        = __clk_rcg2_set_rate a rcg rate w) /\
  (forall parent_rate parent_rate' index,
      clk_rcg2_set_rate a rcg rate parent_rate w
        = clk_rcg2_set_rate_and_parent a rcg rate parent_rate' index w) /\
  (forall i f parent_rate index r w',
      find_freq (rcg_freq_tbl rcg) rate = Some (i, f) ->
      clk_rcg2_set_rate_and_parent a rcg rate parent_rate index w
        = Done r w' ->
      exists evs,
        trace w' = trace w ++ evs /\
        (forall mask val ret,
            EvUpdate (reg_of rcg CFG_REG) mask val ret ∈ evs ->
            exists hid_mask pm,
              width_mask a (hid_width rcg) = Some hid_mask /\
              parent_map rcg !! Z.to_nat (f_src f) = Some pm /\
              mask = cfg_mask hid_mask /\
              val = cfg_value rcg f pm) /\
        (r = 0 ->
         exists hid_mask pm,
           width_mask a (hid_width rcg) = Some hid_mask /\
           parent_map rcg !! Z.to_nat (f_src f) = Some pm /\
           EvUpdate (reg_of rcg CFG_REG) (cfg_mask hid_mask)
             (cfg_value rcg f pm) 0 ∈ evs)) /\
  (forall i f parent_rate index (ws ws' : world sim),
      find_freq (rcg_freq_tbl rcg) rate = Some (i, f) ->
      @clk_rcg2_set_rate_and_parent sim (regmap_of rcg) a rcg rate
        parent_rate index ws = Done 0 ws' ->
      exists pm,
        parent_map rcg !! Z.to_nat (f_src f) = Some pm /\
        cfg_src_sel (sim_reg (hw ws') (reg_of rcg CFG_REG))
          = cfg_src_sel (cfg_value rcg f pm) /\
        (0 <= f_pre_div f < 2 ^ 8 -> 0 <= pm ->
         cfg_src_sel (sim_reg (hw ws') (reg_of rcg CFG_REG)) = pm mod 8)).
Proof.
  split; [reflexivity|]. split; [reflexivity|]. split; [reflexivity|].
  split.
  - intros i f parent_rate index r w' Hfind Hrun.
    unfold clk_rcg2_set_rate_and_parent in Hrun.
    exact (set_rate_selects a rcg rate i f Hfind w r w' Hrun).
  - intros i f parent_rate index ws ws' Hfind Hrun.
    unfold clk_rcg2_set_rate_and_parent in Hrun.
    destruct (set_rate_reaches_cfg a rcg rate ws ws' i f Hfind Hrun)
      as (w1 & Hcfg & _).
    destruct (set_rate_cfg_defined a rcg f w1 0 ws' Hcfg)
      as (hid_mask & pm & Hmask & Hpm).
    pose proof (set_rate_cfg_writes a rcg f w1 ws' hid_mask pm Hmask Hpm Hcfg)
      as Hnew.
    assert (Hsel : cfg_src_sel (sim_reg (hw ws') (reg_of rcg CFG_REG))
                   = cfg_src_sel (cfg_value rcg f pm))
      by (rewrite Hnew; apply src_sel_merged).
    exists pm. split; [exact Hpm|]. split; [exact Hsel|].
    intros Hdiv Hfit. rewrite Hsel. by apply cfg_value_src_sel.
Qed.

(** The fractional row of a one-row generator names the third parent;
    programming it through [clk_rcg2_set_rate_and_parent] with parent index
    0 selects the third parent's code all the same. *)
Lemma set_rate_entry_points_agree_witness :
  exists ws',
    @clk_rcg2_set_rate_and_parent sim (regmap_of mnd_rcg) ILP32 mnd_rcg
      3686400 19200000 0 (quiet 0) = Done 0 ws' /\
    cfg_src_sel (sim_reg (hw ws') (reg_of mnd_rcg CFG_REG)) = 5.
Proof.
  eexists. split; [vm_compute; reflexivity|].
  match goal with
  | |- cfg_src_sel (sim_reg (hw ?ws') _) = _ =>
      destruct (@set_rate_entry_points_agree sim (regmap_of mnd_rcg) ILP32
                  mnd_rcg 3686400 (quiet 0))
        as (_ & _ & _ & _ & Hsel);
      destruct (Hsel 0%nat
                  {| f_freq := 3686400; f_src := 2; f_pre_div := 1;
                     f_m := 24; f_n := 125 |}
                  19200000 0 (quiet 0) ws')
        as (pm & Hpm & _ & Hfit)
  end.
  - reflexivity.
  - vm_compute. reflexivity.
  - cbn in Hpm. inversion Hpm; subst pm.
    rewrite Hfit by (simpl; lia). reflexivity.
Defined.

(** ** More on the table lookup *)

Lemma find_freq_from_shift (l : list freq_tbl) (R : Z) :
  forall i k E,
    find_freq_from i l R = Some (k, E) ->
    forall i', find_freq_from i' l R = Some ((k - i + i')%nat, E).
Proof.
  induction l as [|e l IH]; intros i k E Hf i'; simpl in *; [discriminate|].
  destruct (f_freq e =? 0); [discriminate|].
  destruct (R <=? f_freq e).
  - inversion Hf; subst. do 2 f_equal. lia.
  - pose proof (find_freq_from_found _ _ _ _ _ Hf) as (j & -> & _).
    rewrite (IH _ _ _ Hf (S i')). do 2 f_equal. lia.
Qed.

Lemma find_freq_from_between (l : list freq_tbl) (R R' : Z) :
  forall i k E,
    find_freq_from i l R = Some (k, E) ->
    R <= R' <= f_freq E ->
    find_freq_from i l R' = Some (k, E).
Proof.
  induction l as [|e l IH]; intros i k E Hf HR'; simpl in *; [discriminate|].
  destruct (f_freq e =? 0); [discriminate|].
  destruct (Z.leb_spec R (f_freq e)).
  - inversion Hf; subst.
    destruct (Z.leb_spec R' (f_freq E)); [reflexivity|lia].
  - destruct (Z.leb_spec R' (f_freq e)); [lia|]. eauto.
Qed.

(** X3.  The row found for a rate is also the row found for every rate
    between that rate and the row's own frequency; in particular asking for
    the frequency of the row found gives the same row again. *)
Theorem find_freq_stable (T : freq_table) (R R' : Z)
    (i : nat) (E : freq_tbl) :
  find_freq T R = Some (i, E) ->
  R <= R' <= f_freq E ->
  find_freq T R' = Some (i, E) /\ find_freq T (f_freq E) = Some (i, E).
Proof.
  intros Hf HR'. destruct T as [l|]; [|discriminate]. simpl in *.
  split; eapply find_freq_from_between; eauto; lia.
Qed.

Lemma find_freq_stable_witness :
  find_freq (Some demo_tbl) 15000000 =
    Some (1%nat, {| f_freq := 19200000; f_src := 0; f_pre_div := 1;
                    f_m := 0; f_n := 0 |}) /\
  find_freq (Some demo_tbl) 19200000 =
    Some (1%nat, {| f_freq := 19200000; f_src := 0; f_pre_div := 1;
                    f_m := 0; f_n := 0 |}).
Proof.
  apply (find_freq_stable (Some demo_tbl) 4000000 15000000 1%nat
           {| f_freq := 19200000; f_src := 0; f_pre_div := 1;
              f_m := 0; f_n := 0 |}).
  - reflexivity.
  - simpl; lia.
Defined.

Lemma find_freq_from_monotone (l : list freq_tbl) (R1 R2 : Z) :
  R1 <= R2 ->
  forall i k2 E2,
    find_freq_from i l R2 = Some (k2, E2) ->
    exists k1 E1,
      find_freq_from i l R1 = Some (k1, E1) /\
      (k1 <= k2)%nat /\ f_freq E1 <= f_freq E2.
Proof.
  intros HR. induction l as [|e l IH]; intros i k2 E2 Hf; simpl in *;
    [discriminate|].
  destruct (f_freq e =? 0); [discriminate|].
  destruct (Z.leb_spec R2 (f_freq e)) as [H2|H2].
  - inversion Hf; subst.
    destruct (Z.leb_spec R1 (f_freq E2)); [|lia].
    exists k2, E2. split; [reflexivity|]. split; lia.
  - destruct (Z.leb_spec R1 (f_freq e)) as [H1|H1].
    + exists i, e. split; [reflexivity|].
      apply find_freq_from_found in Hf as (j & -> & _ & Hle & _).
      split; lia.
    + destruct (IH _ _ _ Hf) as (k1 & E1 & Hf1 & Hk & Hfreq).
      exists k1, E1. auto.
Qed.

(** X4.  The lookup is monotone in the rate, whatever the order of the
    table: if a rate finds a row, every lower rate finds a row too, at the
    same or an earlier position and of the same or a lower frequency. *)
Theorem find_freq_monotone (T : freq_table) (R1 R2 : Z)
    (i2 : nat) (E2 : freq_tbl) :
  R1 <= R2 ->
  find_freq T R2 = Some (i2, E2) ->
  exists i1 E1,
    find_freq T R1 = Some (i1, E1) /\
    (i1 <= i2)%nat /\ f_freq E1 <= f_freq E2.
Proof.
  intros HR Hf. destruct T as [l|]; [|discriminate]. simpl in *.
  by eapply find_freq_from_monotone.
Qed.

Lemma find_freq_monotone_witness :
  exists i1 E1,
    find_freq (Some demo_tbl) 1000000 = Some (i1, E1) /\
    (i1 <= 2)%nat /\ f_freq E1 <= 50000000.
Proof.
  apply (find_freq_monotone (Some demo_tbl) 1000000 30000000 2%nat
           {| f_freq := 50000000; f_src := 1; f_pre_div := 23;
              f_m := 0; f_n := 0 |}).
  - lia.
  - reflexivity.
Defined.

(** ** Negotiating a rate, then setting it *)

Lemma to_long_nonneg (a : abi) (x : Z) :
  0 <= x < 2 ^ BITS_PER_LONG a -> 0 <= to_long a x -> to_long a x = x.
Proof.
  intros Hx. unfold to_long. rewrite ulong_small by lia.
  destruct (Z.ltb_spec x (2 ^ (BITS_PER_LONG a - 1))); lia.
Qed.

(** X5.  When [clk_rcg2_determine_rate] succeeds, that is returns a rate
    that is not negative, the rate it returns is the frequency of the row
    matched for the request, and setting that rate afterwards selects the
    same row: [__clk_rcg2_set_rate] with the negotiated rate is the same
    run as with the rate first asked for.  The rows hold [unsigned long]
    frequencies. *)
Theorem determine_rate_then_set_rate {clk H : Type} `{!Regmap H} (a : abi)
    (CLK_SET_RATE_PARENT : Z) (clk_get_parent_by_index : Z -> clk)
    (__clk_get_rate : clk -> Z)
    (rcg : clk_rcg2) (R p_rate : Z) (p : clk) (r p_rate' : Z) (p' : clk) :
  (forall l e, rcg_freq_tbl rcg = Some l -> e ∈ l ->
               f_freq e < 2 ^ BITS_PER_LONG a) ->
  0 <= R ->
  clk_rcg2_determine_rate a CLK_SET_RATE_PARENT clk_get_parent_by_index
    __clk_get_rate rcg R p_rate p = Some (r, p_rate', p') ->
  0 <= r ->
  (exists i E,
      find_freq (rcg_freq_tbl rcg) R = Some (i, E) /\
      r = f_freq E /\
      find_freq (rcg_freq_tbl rcg) r = Some (i, E)) /\
  __clk_rcg2_set_rate a rcg r = __clk_rcg2_set_rate a rcg R.
Proof.
  intros Hrows HR Hdet Hr.
  unfold clk_rcg2_determine_rate, _freq_tbl_determine_rate in Hdet.
  destruct (find_freq (rcg_freq_tbl rcg) R) as [[i E]|] eqn:Hfind.
  2:{ inversion Hdet; subst. unfold EINVAL in Hr. lia. }
  destruct (if negb (Z.land (clk_flags rcg) CLK_SET_RATE_PARENT =? 0)
            then parent_rate_for a E R
            else Some (__clk_get_rate (clk_get_parent_by_index (f_src E))))
    as [rate|]; [|discriminate].
  inversion Hdet; subst r p_rate' p'. clear Hdet.
  assert (Hfreq : to_long a (f_freq E) = f_freq E).
  { apply to_long_nonneg; [|exact Hr].
    destruct (rcg_freq_tbl rcg) as [l|] eqn:HT; [|discriminate].
    pose proof Hfind as Hfound. simpl in Hfound.
    apply find_freq_from_found in Hfound as (j & _ & Hj & Hle & _).
    split; [lia|]. apply (Hrows l E eq_refl).
    apply list_elem_of_lookup. eauto. }
  rewrite Hfreq in *.
  assert (Hsame : find_freq (rcg_freq_tbl rcg) (f_freq E) = Some (i, E)).
  { destruct (rcg_freq_tbl rcg) as [l|]; [|discriminate]. simpl in *.
    pose proof (find_freq_from_found _ _ _ _ _ Hfind) as (j & _ & _ & Hle & _).
    eapply find_freq_from_between; [exact Hfind|lia]. }
  split; [by exists i, E|].
  unfold __clk_rcg2_set_rate. by rewrite Hsame, Hfind.
Qed.

Lemma determine_rate_then_set_rate_witness :
  @__clk_rcg2_set_rate sim (regmap_of demo_rcg) ILP32 demo_rcg 50000000
  = @__clk_rcg2_set_rate sim (regmap_of demo_rcg) ILP32 demo_rcg 30000000.
Proof.
  apply (@determine_rate_then_set_rate Z sim (regmap_of demo_rcg) ILP32 4
           (fun i : Z => i) (fun _ : Z => 800000000) demo_rcg 30000000 0 0
           50000000 800000000 1).
  - intros l e Hl He. injection Hl as <-.
    repeat (apply elem_of_cons in He as [->|He]; [reflexivity|]).
    by apply elem_of_nil in He.
  - lia.
  - reflexivity.
  - lia.
Defined.

(** ** More on the rate arithmetic *)

(** X6.  The divider field holds twice the divider minus one: with the
    mode off, a field of [2 * d - 1] divides the parent rate by [d], as long
    as the doubled rate fits an [unsigned long]. *)
Theorem calc_rate_divides_by_half_field (a : abi) (rate m n d : Z) :
  0 <= rate -> rate * 2 < 2 ^ BITS_PER_LONG a ->
  1 <= d -> 2 * d - 1 < 2 ^ 32 - 1 ->
  calc_rate a rate m n 0 (2 * d - 1) = Some (rate / d).
Proof.
  intros Hrate Hdbl Hd Hfield. unfold calc_rate.
  destruct (Z.eqb_spec (2 * d - 1) 0) as [?|_]; [lia|].
  cbv zeta. rewrite u32_small by lia. rewrite ulong_small by lia.
  destruct (Z.eqb_spec (2 * d - 1 + 1) 0) as [?|_]; [lia|].
  cbn [Z.eqb]. f_equal.
  replace (2 * d - 1 + 1) with (d * 2) by lia.
  apply Z.div_mul_cancel_r; lia.
Qed.

Lemma calc_rate_divides_by_half_field_witness :
  calc_rate ILP32 600000000 0 0 0 (2 * 12 - 1) = Some (600000000 / 12).
Proof.
  apply calc_rate_divides_by_half_field.
  - lia.
  - reflexivity.
  - lia.
  - reflexivity.
Defined.

Lemma wrap_div_bound (x d M1 : Z) :
  0 <= x -> 0 < d -> 0 < M1 ->
  0 <= (x mod M1) / d /\ (x mod M1) / d * d <= x.
Proof.
  intros Hx Hd HM.
  pose proof (Z.mod_pos_bound x M1 HM) as [Hlo _].
  pose proof (Z.mod_le x M1 Hx HM) as Hle.
  split; [apply Z.div_pos; lia|].
  pose proof (Z.mul_div_le (x mod M1) d Hd). lia.
Qed.

Lemma wrap_bound (y M2 : Z) : 0 <= y -> 0 < M2 -> 0 <= y mod M2 <= y.
Proof.
  intros Hy HM. pose proof (Z.mod_pos_bound y M2 HM).
  pose proof (Z.mod_le y M2 Hy HM). lia.
Qed.

Lemma ulong_modulus_pos (a : abi) : 0 < 2 ^ BITS_PER_LONG a.
Proof. destruct a; simpl; lia. Qed.



(** ** The parent query, in full *)

(** X8.  For a clock with at most 234 parents, all of them in the parent
    map, and a config register that reads without error, the parent query
    completes and returns either the least index whose select code is the
    field read, or 234, which is then not the index of any parent and is
    returned exactly when no parent has that code. *)
Theorem get_parent_least_match {H : Type} `{!Regmap H}
    (rcg : clk_rcg2) (w : world H) (h : H) (cfg : Z) :
  hw_read (hw w) (reg_of rcg CFG_REG) = (h, (0, cfg)) ->
  0 <= num_parents rcg <= 234 ->
  (Z.to_nat (num_parents rcg) <= length (parent_map rcg))%nat ->
  exists r,
    clk_rcg2_get_parent rcg w =
      Done r (World h (trace w ++ [EvRead (reg_of rcg CFG_REG) 0 cfg])) /\
    ((0 <= r < num_parents rcg /\
      parent_map rcg !! Z.to_nat r = Some (cfg_src_sel cfg) /\
      forall j v, 0 <= j < r -> parent_map rcg !! Z.to_nat j = Some v ->
                  v <> cfg_src_sel cfg) \/
     (r = 234 /\
      forall j v, 0 <= j < num_parents rcg ->
                  parent_map rcg !! Z.to_nat j = Some v ->
                  v <> cfg_src_sel cfg)).
Proof.
  intros Hread Hnum Hlen.
  pose proof (clk_rcg2_get_parent_result rcg w h cfg Hread ltac:(lia))
    as Hres.
  cbv zeta in Hres.
  destruct (clk_rcg2_get_parent rcg w) as [r w1|].
  - destruct Hres as [-> Hcases]. exists r. split; [reflexivity|].
    destruct Hcases as [(i & -> & Hi & Hpi & Hbefore)|[-> Hnone]].
    + left. unfold u8. change (2 ^ 8) with 256.
      rewrite Z.mod_small by lia. auto.
    + right. split; [reflexivity|]. intros j v Hj Hv.
      destruct (Hnone j Hj) as (v' & Hv' & Hne). congruence.
  - destruct Hres as (j & Hj & Hnone).
    apply lookup_ge_None in Hnone. lia.
Qed.

Lemma get_parent_least_match_witness :
  exists r,
    @clk_rcg2_get_parent sim (regmap_of demo_rcg) demo_rcg
      (World (Sim {[ reg_of demo_rcg CFG_REG := 0x217 ]} [] 0) []) =
      Done r (World (Sim {[ reg_of demo_rcg CFG_REG := 0x217 ]} [] 0)
                ([] ++ [EvRead (reg_of demo_rcg CFG_REG) 0 0x217])) /\
    ((0 <= r < 3 /\
      parent_map demo_rcg !! Z.to_nat r = Some (cfg_src_sel 0x217) /\
      forall j v, 0 <= j < r -> parent_map demo_rcg !! Z.to_nat j = Some v ->
                  v <> cfg_src_sel 0x217) \/
     (r = 234 /\
      forall j v, 0 <= j < 3 ->
                  parent_map demo_rcg !! Z.to_nat j = Some v ->
                  v <> cfg_src_sel 0x217)).
Proof.
  apply (@get_parent_least_match sim (regmap_of demo_rcg) demo_rcg
           (World (Sim {[ reg_of demo_rcg CFG_REG := 0x217 ]} [] 0) [])).
  - reflexivity.
  - simpl; lia.
  - simpl; lia.
Defined.

(** ** The register file: quiet reads and single updates *)

Lemma regmap_read_quiet (rcg : clk_rcg2) (w : world sim) (reg : Z) :
  faults (hw w) = [] ->
  reg <> reg_of rcg CMD_REG ->
  regmap_read (Regmap0 := regmap_of rcg) reg w =
    Done (0, sim_reg (hw w) reg)
      (World (hw w) (trace w ++ [EvRead reg 0 (sim_reg (hw w) reg)])).
Proof.
  intros Hq Hreg. unfold regmap_read.
  cbn [hw_read regmap_of sim_regmap]. unfold sim_read, next_fault.
  rewrite Hq. cbn [Z.eqb negb].
  destruct (Z.eqb_spec reg (reg_of rcg CMD_REG)) as [?|_]; [congruence|].
  cbn [andb]. rewrite <- Hq. by destruct (hw w).
Qed.

Lemma regmap_update_bits_sim (rcg : clk_rcg2) (reg mask val : Z)
    (w : world sim) (ret : Z) (w1 : world sim) :
  regmap_update_bits (Regmap0 := regmap_of rcg) reg mask val w = Done ret w1 ->
  (ret <> 0 /\ forall r, sim_reg (hw w1) r = sim_reg (hw w) r) \/
  (ret = 0 /\
   sim_reg (hw w1) reg = merged (sim_reg (hw w) reg) mask val /\
   forall r, r <> reg -> sim_reg (hw w1) r = sim_reg (hw w) r).
Proof.
  intros Hrun. unfold regmap_update_bits in Hrun.
  cbn [hw_update_bits regmap_of sim_regmap] in Hrun.
  destruct (sim_update_bits_spec (hw w) reg mask val)
    as (s' & ret' & Hupd & Hcases).
  rewrite Hupd in Hrun. inversion Hrun; subst. exact Hcases.
Qed.

Lemma merged_same (orig mask val : Z) :
  Z.land (merged orig mask val) mask = Z.land val mask.
Proof.
  apply Z.bits_inj'. intros i Hi.
  rewrite !Z.land_spec, merged_testbit by lia.
  by destruct (Z.testbit mask i), (Z.testbit val i), (Z.testbit orig i).
Qed.

Lemma src_sel_of_shifted (pm : Z) :
  0 <= pm < 8 ->
  Z.shiftr (Z.land (u32 (Z.shiftl pm CFG_SRC_SEL_SHIFT)) CFG_SRC_SEL_MASK)
    CFG_SRC_SEL_SHIFT = pm.
Proof.
  intros Hpm. unfold CFG_SRC_SEL_SHIFT.
  rewrite u32_small
    by (rewrite Z.shiftl_mul_pow2 by lia;
        change (2 ^ 8) with 256; change (2 ^ 32) with 4294967296; lia).
  apply Z.bits_inj'. intros j Hj.
  rewrite Z.shiftr_spec, Z.land_spec, sel_mask_testbit, Z.shiftl_spec by lia.
  replace (j + 8 - 8) with j by lia.
  destruct (Z.leb_spec 8 (j + 8)); [|lia]. cbn [andb].
  destruct (Z.ltb_spec (j + 8) 11).
  - apply andb_true_r.
  - rewrite andb_false_r. symmetry.
    apply (testbit_small pm 3); [change (2 ^ 3) with 8|]; lia.
Qed.

(** ** Selecting a parent *)

Lemma set_parent_sim (rcg : clk_rcg2) (index : Z) (w : world sim)
    (r : Z) (w' : world sim) :
  clk_rcg2_set_parent (Regmap0 := regmap_of rcg) rcg index w = Done r w' ->
  exists pm,
    parent_map rcg !! Z.to_nat index = Some pm /\
    (forall reg, reg <> reg_of rcg CFG_REG -> reg <> reg_of rcg CMD_REG ->
                 sim_reg (hw w') reg = sim_reg (hw w) reg) /\
    (sim_reg (hw w') (reg_of rcg CFG_REG) = sim_reg (hw w) (reg_of rcg CFG_REG)
     \/ sim_reg (hw w') (reg_of rcg CFG_REG) =
          merged (sim_reg (hw w) (reg_of rcg CFG_REG)) CFG_SRC_SEL_MASK
            (u32 (Z.shiftl pm CFG_SRC_SEL_SHIFT))) /\
    (r = 0 ->
     sim_reg (hw w') (reg_of rcg CFG_REG) =
       merged (sim_reg (hw w) (reg_of rcg CFG_REG)) CFG_SRC_SEL_MASK
         (u32 (Z.shiftl pm CFG_SRC_SEL_SHIFT))).
Proof.
  intros Hrun. unfold clk_rcg2_set_parent in Hrun.
  apply bind_done in Hrun as (pm & w0 & Hd & Hrun).
  apply defined_done in Hd as [Hpm ->].
  apply bind_done in Hrun as (ret & w1 & Hupd & Hrun).
  exists pm. split; [exact Hpm|].
  apply regmap_update_bits_sim in Hupd
    as [[Hret Hsame]|(-> & Hnew & Hothers)].
  - apply Z.eqb_neq in Hret. rewrite Hret in Hrun. cbn [negb] in Hrun.
    apply ret_done in Hrun as [<- ->]. apply Z.eqb_neq in Hret.
    split; [auto|]. split; [left; apply Hsame|]. congruence.
  - cbn [Z.eqb negb] in Hrun.
    assert (Hkeep : forall reg, reg <> reg_of rcg CMD_REG ->
                                sim_reg (hw w') reg = sim_reg (hw w1) reg).
    { intros reg Hreg. apply (keeps_update_config rcg reg Hreg _ _ _ Hrun). }
    split.
    { intros reg Hcfg Hcmd. rewrite Hkeep by exact Hcmd. by apply Hothers. }
    rewrite (Hkeep _ (cfg_is_not_cmd rcg)), Hnew. auto.
Qed.

(** X9.  Selecting a parent and then asking for the parent gives the
    parent back.  On a register file with read-modify-write updates, after
    [clk_rcg2_set_parent] has returned 0 for an index whose select code fits
    the 3-bit field, a [clk_rcg2_get_parent] that reads without failure
    returns the least index with the same select code as the index set; it
    is the index set when no two parents share a select code. *)
Theorem set_parent_then_get_parent (rcg : clk_rcg2) (index pm : Z)
    (w w' : world sim) :
  parent_map rcg !! Z.to_nat index = Some pm ->
  0 <= pm < 8 ->
  0 <= index < 256 ->
  index < num_parents rcg ->
  (Z.to_nat (num_parents rcg) <= length (parent_map rcg))%nat ->
  clk_rcg2_set_parent (Regmap0 := regmap_of rcg) rcg index w = Done 0 w' ->
  faults (hw w') = [] ->
  exists i w'',
    clk_rcg2_get_parent (Regmap0 := regmap_of rcg) rcg w' = Done i w'' /\
    0 <= i <= index /\
    parent_map rcg !! Z.to_nat i = Some pm /\
    (forall j v, 0 <= j < i -> parent_map rcg !! Z.to_nat j = Some v ->
                 v <> pm) /\
    (NoDup (parent_map rcg) -> i = index).
Proof.
  intros Hpm Hfit Hindex Hnum Hlen Hset Hquiet.
  destruct (set_parent_sim rcg index w 0 w' Hset)
    as (pm' & Hpm' & _ & _ & Hcfg).
  assert (pm' = pm) by congruence. subst pm'.
  specialize (Hcfg eq_refl).
  assert (Hsel : cfg_src_sel (sim_reg (hw w') (reg_of rcg CFG_REG)) = pm).
  { rewrite Hcfg. unfold cfg_src_sel. rewrite merged_same.
    by apply src_sel_of_shifted. }
  unfold clk_rcg2_get_parent, mbind, M_bind.
  rewrite (regmap_read_quiet rcg w' _ Hquiet (cfg_is_not_cmd rcg)).
  cbn [Z.eqb negb]. rewrite Hsel.
  destruct (parent_scan (parent_map rcg) pm 0 (Z.to_nat (num_parents rcg)))
    as [i| |] eqn:Hscan.
  - apply parent_scan_hit in Hscan as (Hi & Hpi & Hbefore); [|lia].
    assert (Hle : i <= index).
    { destruct (Z.le_gt_cases i index) as [?|Hgt]; [assumption|].
      exfalso. apply (Hbefore index pm); [lia|exact Hpm|reflexivity]. }
    exists i. eexists. split.
    { unfold u8. change (2 ^ 8) with 256. by rewrite Z.mod_small by lia. }
    split; [lia|]. split; [exact Hpi|]. split; [exact Hbefore|].
    intros Hnodup.
    pose proof (NoDup_lookup _ _ _ _ Hnodup Hpi Hpm). lia.
  - exfalso.
    destruct (parent_scan_miss _ _ _ 0 ltac:(lia) Hscan index ltac:(lia))
      as (v & Hv & Hne).
    congruence.
  - exfalso.
    apply parent_scan_oob in Hscan as (j & Hj & Hnone); [|lia].
    apply lookup_ge_None in Hnone. lia.
Qed.

Lemma set_parent_then_get_parent_witness :
  exists w' i w'',
    @clk_rcg2_set_parent sim (regmap_of demo_rcg) demo_rcg 2 (quiet 1)
      = Done 0 w' /\
    @clk_rcg2_get_parent sim (regmap_of demo_rcg) demo_rcg w' = Done i w'' /\
    0 <= i <= 2.
Proof.
  destruct (@clk_rcg2_set_parent sim (regmap_of demo_rcg) demo_rcg 2
              (quiet 1)) as [r w'|] eqn:Hset;
    [|vm_compute in Hset; discriminate].
  assert (r = 0) as -> by (vm_compute in Hset; congruence).
  destruct (set_parent_then_get_parent demo_rcg 2 2 (quiet 1) w')
    as (i & w'' & Hget & Hi & _).
  - reflexivity.
  - lia.
  - lia.
  - simpl; lia.
  - simpl; lia.
  - exact Hset.
  - vm_compute in Hset. by inversion Hset.
  - exists w', i, w''. auto.
Defined.

(** X10.  Selecting a parent changes nothing but the select field and the
    command register: whether it succeeds or fails, every bit of the config
    register outside bits 8 to 10 (the divider and mode fields among them)
    and every register other than config and command (the M, N and D
    counters among them) is as before. *)
Theorem set_parent_frame (rcg : clk_rcg2) (index : Z) (w : world sim)
    (r : Z) (w' : world sim) :
  clk_rcg2_set_parent (Regmap0 := regmap_of rcg) rcg index w = Done r w' ->
  (forall reg, reg <> reg_of rcg CFG_REG -> reg <> reg_of rcg CMD_REG ->
               sim_reg (hw w') reg = sim_reg (hw w) reg) /\
  (forall k, 0 <= k -> ~ 8 <= k < 11 ->
             Z.testbit (sim_reg (hw w') (reg_of rcg CFG_REG)) k =
             Z.testbit (sim_reg (hw w) (reg_of rcg CFG_REG)) k).
Proof.
  intros Hrun.
  destruct (set_parent_sim rcg index w r w' Hrun)
    as (pm & _ & Hothers & Hcfg & _).
  split; [exact Hothers|].
  intros k Hk Hout. destruct Hcfg as [-> | ->]; [reflexivity|].
  apply merged_outside; [exact Hk|].
  rewrite sel_mask_testbit by exact Hk.
  destruct (Z.leb_spec 8 k), (Z.ltb_spec k 11); cbn [andb]; lia || reflexivity.
Qed.

Lemma set_parent_frame_witness :
  exists r w',
    @clk_rcg2_set_parent sim (regmap_of demo_rcg) demo_rcg 1
      (World (Sim {[ reg_of demo_rcg CFG_REG := 0x2017 ]} [] 0) [])
    = Done r w' /\
    Z.testbit (sim_reg (hw w') (reg_of demo_rcg CFG_REG)) 13 =
    Z.testbit 0x2017 13.
Proof.
  destruct (@clk_rcg2_set_parent sim (regmap_of demo_rcg) demo_rcg 1
              (World (Sim {[ reg_of demo_rcg CFG_REG := 0x2017 ]} [] 0) []))
    as [r w'|] eqn:Hset; [|vm_compute in Hset; discriminate].
  exists r, w'. split; [reflexivity|].
  apply (proj2 (set_parent_frame demo_rcg 1 _ r w' Hset) 13); lia.
Defined.

(** ** Reading the rate back *)

Lemma width_mask_ones31 (a : abi) (width : Z) :
  0 <= width <= 31 -> width_mask a width = Some (Z.ones width).
Proof.
  intros Hw. unfold width_mask, BIT.
  destruct (Z.leb_spec 0 width); [|lia].
  destruct (Z.ltb_spec width (BITS_PER_LONG a));
    [|destruct a; simpl in *; lia].
  cbn [andb]. f_equal. rewrite Z.ones_equiv, Z.shiftl_1_l.
  apply u32_small.
  assert (2 ^ width <= 2 ^ 31) by (apply Z.pow_le_mono_r; lia).
  assert (0 < 2 ^ width) by (apply Z.pow_pos_nonneg; lia).
  change (2 ^ 31) with 2147483648 in *. change (2 ^ 32) with 4294967296. lia.
Qed.

(** What [clk_rcg2_recalc_rate] computes on a register file that does not
    fail: [calc_rate] of the fields of the config, M and N registers. *)
Lemma recalc_rate_quiet (a : abi) (rcg : clk_rcg2) (P : Z) (w : world sim) :
  faults (hw w) = [] ->
  0 <= mnd_width rcg <= 31 ->
  0 <= hid_width rcg <= 31 ->
  let cfg := sim_reg (hw w) (reg_of rcg CFG_REG) in
  let mask := Z.ones (mnd_width rcg) in
  let m := Z.land (sim_reg (hw w) (reg_of rcg M_REG)) mask in
  let n := u32 (Z.land (u32 (Z.lnot (sim_reg (hw w) (reg_of rcg N_REG)))) mask
                + m) in
  exists evs,
    clk_rcg2_recalc_rate (Regmap0 := regmap_of rcg) a rcg P w =
      defined
        (if mnd_width rcg =? 0
         then calc_rate a P 0 0 0 (cfg_hid_div (Z.ones (hid_width rcg)) cfg)
         else calc_rate a P m n (cfg_mode cfg)
                (cfg_hid_div (Z.ones (hid_width rcg)) cfg))
        (World (hw w) (trace w ++ evs)).
Proof.
  intros Hq Hmw Hhw. cbv zeta.
  assert (Hne : forall off, 0 < off < 2 ^ 32 ->
                            reg_of rcg off <> reg_of rcg CMD_REG).
  { intros off Hoff Heq. apply reg_of_inj in Heq; unfold CMD_REG in *; lia. }
  unfold clk_rcg2_recalc_rate, mbind, M_bind.
  rewrite (regmap_read_quiet rcg w _ Hq) by (apply Hne; unfold CFG_REG; lia).
  rewrite (width_mask_ones31 a (hid_width rcg) Hhw).
  destruct (Z.eqb_spec (mnd_width rcg) 0) as [Hz|Hnz]; cbn [negb].
  - eexists. unfold mret, M_ret, defined. reflexivity.
  - rewrite (width_mask_ones31 a (mnd_width rcg) Hmw).
    unfold defined at 1.
    rewrite (regmap_read_quiet rcg _ (reg_of rcg M_REG))
      by first [cbn [hw]; exact Hq|apply Hne; unfold M_REG; lia].
    cbn [hw trace].
    rewrite (regmap_read_quiet rcg _ (reg_of rcg N_REG))
      by first [cbn [hw]; exact Hq|apply Hne; unfold N_REG; lia].
    cbn [hw trace]. unfold mret, M_ret, defined at 1.
    eexists. rewrite <- !app_assoc. reflexivity.
Qed.

Lemma keeps_defined {A : Type} (r : Z) (o : option A) : keeps r (defined o).
Proof. intros w x w' Hrun. by apply defined_done in Hrun as [_ ->]. Qed.

Lemma keeps_set_rate_cfg (a : abi) (rcg : clk_rcg2) (f : freq_tbl) (r : Z) :
  r <> reg_of rcg CFG_REG -> r <> reg_of rcg CMD_REG ->
  keeps r (set_rate_cfg (Regmap0 := regmap_of rcg) a rcg f).
Proof.
  intros Hcfg Hcmd. unfold set_rate_cfg.
  apply keeps_bind; [apply keeps_defined|]. intros mask.
  apply keeps_bind; [apply keeps_defined|]. intros pm.
  apply keeps_bind; [by apply keeps_update|]. intros ret.
  destruct (negb (ret =? 0)); [apply keeps_ret|].
  by apply keeps_update_config.
Qed.

(** The M and N registers after a successful run for a fractional row. *)
Lemma set_rate_counters (a : abi) (rcg : clk_rcg2) (rate : Z)
    (w w' : world sim) (i : nat) (f : freq_tbl) (mask : Z) :
  find_freq (rcg_freq_tbl rcg) rate = Some (i, f) ->
  use_mnd rcg f = true ->
  width_mask a (mnd_width rcg) = Some mask ->
  __clk_rcg2_set_rate (Regmap0 := regmap_of rcg) a rcg rate w = Done 0 w' ->
  sim_reg (hw w') (reg_of rcg M_REG) =
    merged (sim_reg (hw w) (reg_of rcg M_REG)) mask (u32 (f_m f)) /\
  sim_reg (hw w') (reg_of rcg N_REG) =
    merged (sim_reg (hw w) (reg_of rcg N_REG)) mask
      (u32 (Z.lnot (f_n f - f_m f))).
Proof.
  intros Hfind Huse Hmask Hrun. unfold __clk_rcg2_set_rate in Hrun.
  rewrite Hfind, Huse, Hmask in Hrun.
  assert (Hne : forall x y, 0 <= x < 2 ^ 32 -> 0 <= y < 2 ^ 32 -> x <> y ->
                            reg_of rcg x <> reg_of rcg y).
  { intros x y Hx Hy Hxy Heq. by apply reg_of_inj in Heq. }
  apply bind_done in Hrun as (mask' & w0 & Hd & Hrun).
  apply defined_done in Hd as [Hm ->]. inversion Hm; subst mask'.
  apply bind_done in Hrun as (r1 & w1 & Hu1 & Hrun).
  apply regmap_update_bits_sim in Hu1 as [[Hr1 _]|(-> & HM1 & Ho1)].
  { apply Z.eqb_neq in Hr1. rewrite Hr1 in Hrun. cbn [negb] in Hrun.
    apply ret_done in Hrun as [-> _]. discriminate. }
  cbn [Z.eqb negb] in Hrun.
  apply bind_done in Hrun as (r2 & w2 & Hu2 & Hrun).
  apply regmap_update_bits_sim in Hu2 as [[Hr2 _]|(-> & HN2 & Ho2)].
  { apply Z.eqb_neq in Hr2. rewrite Hr2 in Hrun. cbn [negb] in Hrun.
    apply ret_done in Hrun as [-> _]. discriminate. }
  cbn [Z.eqb negb] in Hrun.
  apply bind_done in Hrun as (r3 & w3 & Hu3 & Hrun).
  apply regmap_update_bits_sim in Hu3 as [[Hr3 _]|(-> & _ & Ho3)].
  { apply Z.eqb_neq in Hr3. rewrite Hr3 in Hrun. cbn [negb] in Hrun.
    apply ret_done in Hrun as [-> _]. discriminate. }
  cbn [Z.eqb negb] in Hrun.
  assert (HMN : forall off, off = M_REG \/ off = N_REG ->
                sim_reg (hw w') (reg_of rcg off) = sim_reg (hw w3) (reg_of rcg off)).
  { intros off Hoff.
    apply (keeps_set_rate_cfg a rcg f (reg_of rcg off)) in Hrun;
      [exact Hrun| |];
      apply Hne; destruct Hoff as [-> | ->];
      unfold M_REG, N_REG, CFG_REG, CMD_REG; lia. }
  split.
  - rewrite (HMN M_REG) by auto.
    rewrite Ho3 by (apply Hne; unfold M_REG, D_REG; lia).
    rewrite Ho2 by (apply Hne; unfold M_REG, N_REG; lia).
    exact HM1.
  - rewrite (HMN N_REG) by auto.
    rewrite Ho3 by (apply Hne; unfold N_REG, D_REG; lia).
    rewrite HN2.
    rewrite Ho1 by (apply Hne; unfold M_REG, N_REG; lia).
    reflexivity.
Qed.

Lemma n_readback (width orig d : Z) :
  0 <= width <= 31 ->
  Z.land (u32 (Z.lnot (merged orig (Z.ones width) (u32 (Z.lnot d)))))
    (Z.ones width)
  = Z.land d (Z.ones width).
Proof.
  intros Hw. apply Z.bits_inj'. intros i Hi.
  rewrite !Z.land_spec, Z.testbit_ones_nonneg by lia.
  destruct (Z.ltb_spec i width); [|by rewrite !andb_false_r].
  rewrite !andb_true_r. unfold u32.
  rewrite Z.mod_pow2_bits_low by lia.
  rewrite Z.lnot_spec, merged_testbit by lia.
  rewrite Z.testbit_ones_nonneg by lia.
  destruct (Z.ltb_spec i width); [|lia].
  rewrite Z.mod_pow2_bits_low by lia.
  rewrite Z.lnot_spec by lia. apply negb_involutive.
Qed.

Lemma calc_rate_mode_off (a : abi) (P m n m' n' hid_div : Z) :
  calc_rate a P m n 0 hid_div = calc_rate a P m' n' 0 hid_div.
Proof. reflexivity. Qed.

(** X11.  What [__clk_rcg2_set_rate] programs is what
    [clk_rcg2_recalc_rate] reads back.  On a register file with
    read-modify-write updates, after a run of [__clk_rcg2_set_rate] that
    returned 0 for a row whose fields fit the hardware (divider in a field
    of at most 8 bits, select code in 3 bits, and for a fractional row
    [m <= n] with [n] in the counter width), a [clk_rcg2_recalc_rate] whose
    reads do not fail computes exactly [calc_rate] of the row's own [m],
    [n] and divider, with the mode on for a fractional row and off
    otherwise, whatever the registers held before. *)
Theorem set_rate_then_recalc_rate (a : abi) (rcg : clk_rcg2) (rate P : Z)
    (w w' : world sim) (i : nat) (f : freq_tbl) (pm : Z) :
  find_freq (rcg_freq_tbl rcg) rate = Some (i, f) ->
  parent_map rcg !! Z.to_nat (f_src f) = Some pm ->
  0 <= hid_width rcg <= 8 ->
  0 <= f_pre_div f < 2 ^ hid_width rcg ->
  0 <= pm < 8 ->
  0 <= mnd_width rcg <= 31 ->
  (use_mnd rcg f = true ->
   0 <= f_m f <= f_n f /\ f_n f < 2 ^ mnd_width rcg) ->
  __clk_rcg2_set_rate (Regmap0 := regmap_of rcg) a rcg rate w = Done 0 w' ->
  faults (hw w') = [] ->
  exists evs,
    clk_rcg2_recalc_rate (Regmap0 := regmap_of rcg) a rcg P w' =
      defined
        (calc_rate a P (f_m f) (f_n f) (if use_mnd rcg f then 2 else 0)
           (f_pre_div f))
        (World (hw w') (trace w' ++ evs)).
Proof.
  intros Hfind Hpm Hhid Hdiv Hsel Hmw Hmn Hrun Hquiet.
  destruct (recalc_rate_quiet a rcg P w' Hquiet Hmw ltac:(lia))
    as (evs & Hrecalc).
  exists evs. rewrite Hrecalc. clear Hrecalc. f_equal.
  (* the config register *)
  destruct (set_rate_reaches_cfg a rcg rate w w' i f Hfind Hrun)
    as (w1 & Hcfg & Hsame).
  pose proof (set_rate_cfg_writes a rcg f w1 w' _ pm
                (width_mask_small a _ Hhid) Hpm Hcfg) as Hnew.
  change (sim_reg (hw w') (reg_of rcg CFG_REG) =
          written_cfg rcg f pm (sim_reg (hw w1) (reg_of rcg CFG_REG)))
    in Hnew.
  rewrite Hnew.
  rewrite (readback_hid_div rcg f pm _ Hhid Hdiv Hsel).
  rewrite (readback_mode rcg f pm _ Hhid Hdiv Hsel).
  destruct (Z.eqb_spec (mnd_width rcg) 0) as [Hz|Hnz].
  { assert (Huse : use_mnd rcg f = false).
    { unfold use_mnd. by rewrite Hz. }
    rewrite Huse. apply calc_rate_mode_off. }
  destruct (use_mnd rcg f) eqn:Huse; [|apply calc_rate_mode_off].
  destruct (Hmn eq_refl) as [[Hm0 Hmle] Hn].
  destruct (set_rate_counters a rcg rate w w' i f _ Hfind Huse
              (width_mask_ones31 a _ Hmw) Hrun) as [HM HN].
  assert (Hpow : 0 < 2 ^ mnd_width rcg <= 2 ^ 31).
  { split; [apply Z.pow_pos_nonneg; lia|apply Z.pow_le_mono_r; lia]. }
  change (2 ^ 31) with 2147483648 in Hpow.
  assert (Hm' : Z.land (sim_reg (hw w') (reg_of rcg M_REG))
                  (Z.ones (mnd_width rcg)) = f_m f).
  { rewrite HM, merged_same, Z.land_ones by lia.
    rewrite u32_small by (change (2 ^ 32) with 4294967296; lia).
    apply Z.mod_small. lia. }
  assert (Hn' : Z.land (u32 (Z.lnot (sim_reg (hw w') (reg_of rcg N_REG))))
                  (Z.ones (mnd_width rcg)) = f_n f - f_m f).
  { rewrite HN, n_readback, Z.land_ones by lia.
    apply Z.mod_small. lia. }
  rewrite Hm', Hn'.
  replace (f_n f - f_m f + f_m f) with (f_n f) by lia.
  rewrite u32_small by (change (2 ^ 32) with 4294967296; lia).
  reflexivity.
Qed.

(** On the test bench: the fractional row, then the read-back from a
    19.2 MHz parent. *)
Lemma set_rate_then_recalc_rate_witness :
  exists w' evs,
    @__clk_rcg2_set_rate sim (regmap_of demo_rcg) ILP32 demo_rcg 3686400
      (quiet 2) = Done 0 w' /\
    @clk_rcg2_recalc_rate sim (regmap_of demo_rcg) ILP32 demo_rcg 19200000 w'
    = defined (calc_rate ILP32 19200000 24 125 2 1)
        (World (hw w') (trace w' ++ evs)).
Proof.
  destruct (@__clk_rcg2_set_rate sim (regmap_of demo_rcg) ILP32 demo_rcg
              3686400 (quiet 2)) as [r w'|] eqn:Hset;
    [|vm_compute in Hset; discriminate].
  assert (r = 0) as -> by (vm_compute in Hset; congruence).
  destruct (set_rate_then_recalc_rate ILP32 demo_rcg 3686400 19200000
              (quiet 2) w' 0%nat
              {| f_freq := 3686400; f_src := 0; f_pre_div := 1;
                 f_m := 24; f_n := 125 |} 0) as (evs & Hrecalc).
  - reflexivity.
  - reflexivity.
  - simpl; lia.
  - simpl; lia.
  - lia.
  - simpl; lia.
  - intros _. simpl. lia.
  - exact Hset.
  - vm_compute in Hset. by inversion Hset.
  - exists w', evs. split; [reflexivity|exact Hrecalc].
Defined.

(** X15.  The generator only divides: whenever [m <= n], the rate that
    [calc_rate] computes is at most the parent rate, for every divider field
    and also where an intermediate product wraps. *)
Theorem calc_rate_at_most_parent (a : abi) (rate m n mode hid_div : Z) :
  0 <= rate ->
  0 <= hid_div < 2 ^ 32 - 1 ->
  0 <= m ->
  (mode <> 0 -> m <= n /\ 0 < n < 2 ^ 32) ->
  exists out,
    calc_rate a rate m n mode hid_div = Some out /\ 0 <= out <= rate.
Proof.
  intros Hrate Hhid Hm Hmn.
  pose proof (ulong_modulus_pos a) as HL.
  assert (H64 : 0 < 2 ^ 64) by lia.
  unfold calc_rate, do_div, ulong, u64.
  rewrite (u32_small (hid_div + 1)) by lia.
  destruct (Z.eqb_spec (hid_div + 1) 0) as [?|_]; [lia|].
  set (s1 := if hid_div =? 0 then rate
             else (rate * 2) mod 2 ^ BITS_PER_LONG a / (hid_div + 1)).
  assert (Hs1 : 0 <= s1 <= rate).
  { subst s1. destruct (Z.eqb_spec hid_div 0) as [?|Hnz]; [lia|].
    pose proof (wrap_div_bound (rate * 2) (hid_div + 1)
                  (2 ^ BITS_PER_LONG a) ltac:(lia) ltac:(lia) HL)
      as [Hq0 Hq1].
    split; [exact Hq0|]. nia. }
  assert (Hstage :
    (if hid_div =? 0 then Some rate
     else Some ((rate * 2) mod 2 ^ BITS_PER_LONG a / (hid_div + 1)))
    = Some s1).
  { subst s1. by destruct (hid_div =? 0). }
  cbv zeta. rewrite Hstage. clear Hstage.
  destruct (Z.eqb_spec mode 0) as [Hz|Hnz].
  - exists s1. split; [reflexivity|exact Hs1].
  - destruct (Hmn Hnz) as [Hle [Hn0 Hn1]].
    rewrite (u32_small n) by lia.
    destruct (Z.eqb_spec n 0) as [?|_]; [lia|].
    eexists. split; [reflexivity|].
    pose proof (wrap_div_bound (s1 * m) n (2 ^ 64) ltac:(nia) Hn0 H64)
      as [Hq0 Hq1].
    pose proof (wrap_bound _ (2 ^ BITS_PER_LONG a) Hq0 HL) as Hout.
    split; [lia|].
    set (out := ((s1 * m) mod 2 ^ 64 / n) mod 2 ^ BITS_PER_LONG a) in *.
    assert (H1 : out * n <= s1 * n) by nia.
    nia.
Qed.

Lemma calc_rate_at_most_parent_witness :
  exists out,
    calc_rate ILP32 800000000 1 2 2 3 = Some out /\ 0 <= out <= 800000000.
Proof.
  apply calc_rate_at_most_parent.
  - lia.
  - lia.
  - lia.
  - intros _. lia.
Defined.

(** * Properties of the on-chip memory driver *)

Example ocm_detect_typical :
  ocm_detect PHYS32 None 0x8 =
    Some ([ {| res_start := 0; res_end := 0x2ffff;
               res_flags := IORESOURCE_MEM |};
            {| res_start := 0xffff0000; res_end := 0xffffffff;
               res_flags := IORESOURCE_MEM |};
            no_resource; no_resource ], 2).
Proof. reflexivity. Qed.

Lemma ocm_config_bit_testbit (ocm_config i : Z) :
  0 <= i -> ocm_config_bit ocm_config i = Z.testbit ocm_config i.
Proof.
  intros Hi. unfold ocm_config_bit. rewrite land_bit by exact Hi.
  apply negb_involutive.
Qed.

Lemma ocm_blocks_ext (ph : phys) (smp : option Z) (high high' : Z -> bool)
    (todo : nat) :
  forall i st,
    (forall j, i <= j < i + Z.of_nat todo -> high j = high' j) ->
    ocm_blocks ph smp high i todo st = ocm_blocks ph smp high' i todo st.
Proof.
  induction todo as [|todo IH]; intros i st Hext; [reflexivity|].
  cbn [ocm_blocks]. rewrite (Hext i) by lia.
  destruct (ocm_block ph smp (high' i) i st) as [st'|]; [|reflexivity].
  cbn. apply IH. intros j Hj. apply Hext. lia.
Qed.

(** The detection only looks at the low four bits of the configuration. *)
Lemma ocm_detect_placement (ph : phys) (smp : option Z) (ocm_config : Z) :
  ocm_detect ph smp ocm_config =
    ocm_blocks ph smp
      (placement (Z.testbit ocm_config 0) (Z.testbit ocm_config 1)
         (Z.testbit ocm_config 2) (Z.testbit ocm_config 3))
      0 4 (replicate 4 no_resource, 0).
Proof.
  unfold ocm_detect. change (Z.to_nat ZYNQ_OCM_BLOCKS) with 4%nat.
  apply ocm_blocks_ext. intros j Hj.
  rewrite ocm_config_bit_testbit by lia. unfold placement.
  assert (Hcases : j = 0 \/ j = 1 \/ j = 2 \/ j = 3) by lia.
  destruct Hcases as [-> | [-> | [-> | ->]]]; reflexivity.
Qed.

(** X12.  Whatever the configuration word, the width of physical addresses
    and the trampoline size, the detection loop of [zynq_ocm_probe] never
    leaves the four-entry array, and ends with between one and four
    regions: the entries below [curr] are memory resources with a nonzero
    end, the entries from [curr] on are untouched, so the second loop, which
    stops at the first entry whose end is 0, hands the pool exactly the
    regions detected. *)
Theorem ocm_detect_regions (ph : phys) (smp : option Z) (ocm_config : Z) :
  exists res curr,
    ocm_detect ph smp ocm_config = Some (res, curr) /\
    1 <= curr <= 4 /\
    length res = 4%nat /\
    ocm_pool_regions res = take (Z.to_nat curr) res /\
    (forall r, r ∈ take (Z.to_nat curr) res ->
               res_end r <> 0 /\ res_flags r = IORESOURCE_MEM) /\
    drop (Z.to_nat curr) res =
      replicate (4 - Z.to_nat curr) no_resource.
Proof.
  rewrite ocm_detect_placement.
  destruct (Z.testbit ocm_config 0), (Z.testbit ocm_config 1),
    (Z.testbit ocm_config 2), (Z.testbit ocm_config 3), ph, smp as [t|];
    (eexists _, _; split; [cbv -[postpone_start]; reflexivity|];
     split; [lia|]; split; [reflexivity|]; split; [reflexivity|];
     split; [|reflexivity];
     intros r Hr; cbn in Hr;
     repeat (apply elem_of_cons in Hr as [->|Hr]; [by split|]);
     by apply elem_of_nil in Hr).
Qed.

(** X13.  Without the SMP trampoline, the regions handed to the pool are
    the four 64 KiB blocks, no more and no less, whatever the configuration
    word: an address is in one of the regions exactly when it is in one of
    the blocks at the place the configuration gives it; no two regions
    overlap; every region is a run of whole blocks with start before end;
    and the regions add up to 256 KiB. *)
Theorem ocm_regions_are_the_blocks (ph : phys) (ocm_config : Z) :
  exists res curr,
    ocm_detect ph None ocm_config = Some (res, curr) /\
    (forall addr,
        in_regions addr (ocm_pool_regions res) <->
        in_block ocm_config 0 addr \/ in_block ocm_config 1 addr \/
        in_block ocm_config 2 addr \/ in_block ocm_config 3 addr) /\
    pairwise_apart (ocm_pool_regions res) /\
    (forall r, r ∈ ocm_pool_regions res ->
               res_start r < res_end r /\
               res_start r mod ZYNQ_OCM_BLOCK_SIZE = 0 /\
               resource_size ph r mod ZYNQ_OCM_BLOCK_SIZE = 0) /\
    total_size ph (ocm_pool_regions res) = 4 * ZYNQ_OCM_BLOCK_SIZE.
Proof.
  rewrite ocm_detect_placement.
  unfold in_block, ocm_block_start.
  destruct (Z.testbit ocm_config 0), (Z.testbit ocm_config 1),
    (Z.testbit ocm_config 2), (Z.testbit ocm_config 3), ph;
    (eexists _, _; split; [vm_compute; reflexivity|];
     split;
     [intros addr;
      cbn [ocm_pool_regions in_regions res_end Z.eqb];
      unfold in_resource; cbn [res_start res_end];
      unfold ZYNQ_OCM_HIGHADDR, ZYNQ_OCM_LOWADDR, ZYNQ_OCM_BLOCK_SIZE; lia|];
     split;
     [cbn [ocm_pool_regions pairwise_apart apart_from res_start res_end Z.eqb];
      lia|];
     split;
     [intros r Hr; cbn [ocm_pool_regions res_end Z.eqb] in Hr;
      repeat (apply elem_of_cons in Hr as [->|Hr];
              [cbn [res_start res_end]; split; [lia|split; reflexivity]|]);
      by apply elem_of_nil in Hr
     |reflexivity]).
Qed.

(** X14.  With the SMP trampoline, of a size below one block, the regions
    handed to the pool are the four blocks less the first bytes, as many as
    the trampoline has, of every region that starts with a block placed
    low; this is so for a region at address 0, which holds the trampoline,
    and equally for a low region that follows a high block and starts
    elsewhere.  In particular no address below the trampoline size is ever
    in the pool, and the regions do not overlap. *)
Theorem ocm_regions_spare_the_trampoline (ph : phys) (size ocm_config : Z) :
  0 <= size < ZYNQ_OCM_BLOCK_SIZE ->
  exists res curr,
    ocm_detect ph (Some size) ocm_config = Some (res, curr) /\
    (forall addr,
        in_regions addr (ocm_pool_regions res) <->
        (in_block ocm_config 0 addr \/ in_block ocm_config 1 addr \/
         in_block ocm_config 2 addr \/ in_block ocm_config 3 addr) /\
        ~ (lost_head (negb (Z.testbit ocm_config 0)) true size 0 addr \/
           lost_head (negb (Z.testbit ocm_config 1)) (Z.testbit ocm_config 0)
             size 1 addr \/
           lost_head (negb (Z.testbit ocm_config 2)) (Z.testbit ocm_config 1)
             size 2 addr \/
           lost_head (negb (Z.testbit ocm_config 3)) (Z.testbit ocm_config 2)
             size 3 addr)) /\
    (forall addr, in_regions addr (ocm_pool_regions res) -> size <= addr) /\
    pairwise_apart (ocm_pool_regions res).
Proof.
  unfold ZYNQ_OCM_BLOCK_SIZE. intros Hsize.
  rewrite ocm_detect_placement.
  unfold in_block, ocm_block_start, lost_head.
  destruct (Z.testbit ocm_config 0), (Z.testbit ocm_config 1),
    (Z.testbit ocm_config 2), (Z.testbit ocm_config 3), ph;
    (eexists _, _; split; [cbv -[postpone_start]; reflexivity|];
     unfold postpone_start, u32; change (2 ^ 32) with 4294967296;
     rewrite ?Z.mod_small by lia;
     cbn [ocm_pool_regions in_regions pairwise_apart apart_from
            res_start res_end Z.eqb negb andb];
     unfold in_resource; cbn [res_start res_end];
     unfold ZYNQ_OCM_HIGHADDR, ZYNQ_OCM_LOWADDR, ZYNQ_OCM_BLOCK_SIZE;
     split; [intros addr; lia|]; split; [intros addr; lia|lia]).
Qed.

Lemma ocm_regions_spare_the_trampoline_witness :
  exists res curr,
    ocm_detect PHYS32 (Some 0x40) 0x8 = Some (res, curr) /\
    (forall addr, in_regions addr (ocm_pool_regions res) -> 0x40 <= addr).
Proof.
  destruct (ocm_regions_spare_the_trampoline PHYS32 0x40 0x8)
    as (res & curr & Hdet & _ & Hlow & _).
  - unfold ZYNQ_OCM_BLOCK_SIZE. lia.
  - exists res, curr. split; [exact Hdet|exact Hlow].
Defined.
